(** * Markdown-to-Notion block conversion: a shallow embedding

    This development models [src/services/notion.ts] (class
    [NotionService]): the inline span parser [parseRichText], the block
    classifier [markdownToBlocks] and the title promotion performed by
    [createPage].

    JavaScript strings are sequences of UTF-16 code units; a code unit is
    modelled as a number of type [N] and a string as a list of them.  The
    built-ins of the runtime that the source calls ([split], [trim],
    [startsWith], [slice], the regular expressions, ...) are modelled
    first, then the three methods of the class. *)

From Stdlib Require Import String Ascii.
From Stdlib Require Import List NArith Arith Bool Lia.
Import ListNotations.


(** ** Strings of the runtime *)

Module JS.

Definition char := N.
Definition str := list char.

(** An ASCII literal as a runtime string. *)
Definition js (s : string) : str :=
  List.map N_of_ascii (list_ascii_of_string s).
Arguments js s%_string.

Definition LF : char := 10%N.
Definition STAR : char := 42%N.
Definition BACKTICK : char := 96%N.
Definition DOT : char := 46%N.
Definition SPACE : char := 32%N.
Definition HASH : char := 35%N.
Definition DASH : char := 45%N.
Definition GT : char := 62%N.

Definition str_eq_dec : forall a b : str, {a = b} + {a <> b} :=
  list_eq_dec N.eq_dec.

(** [!s] of the source: the empty string is the only falsy string. *)
Definition falsy (s : str) : bool :=
  match s with [] => true | _ :: _ => false end.

(** [a || b] on strings. *)
Definition or_else (a b : str) : str := if falsy a then b else a.

(** LineTerminator of the language grammar: LF, CR, LS, PS. *)
Definition isLineTerminator (c : char) : bool :=
  ((c =? 10) || (c =? 13) || (c =? 8232) || (c =? 8233))%N.

(** WhiteSpace of the language grammar: TAB, VT, FF, ZWNBSP and the
    Space_Separator category. *)
Definition isWhiteSpace (c : char) : bool :=
  ((c =? 9) || (c =? 11) || (c =? 12) || (c =? 32) || (c =? 160)
   || (c =? 5760) || ((8192 <=? c) && (c <=? 8202))
   || (c =? 8239) || (c =? 8287) || (c =? 12288) || (c =? 65279))%N.

(** What [trim] strips and what [\s] matches. *)
Definition isSpace (c : char) : bool := isWhiteSpace c || isLineTerminator c.

(** What [\d] matches. *)
Definition isDigit (c : char) : bool := ((48 <=? c) && (c <=? 57))%N.

Fixpoint dropWhile (p : char -> bool) (s : str) : str :=
  match s with
  | [] => []
  | c :: s' => if p c then dropWhile p s' else s
  end.

Fixpoint takeWhile (p : char -> bool) (s : str) : str :=
  match s with
  | [] => []
  | c :: s' => if p c then c :: takeWhile p s' else []
  end.

Definition trimStart (s : str) : str := dropWhile isSpace s.
Definition trimEnd (s : str) : str := rev (dropWhile isSpace (rev s)).
Definition trim (s : str) : str := trimEnd (trimStart s).

(** [s.startsWith(p)] *)
Fixpoint startsWith (s p : str) {struct p} : bool :=
  match p, s with
  | [], _ => true
  | _ :: _, [] => false
  | a :: p', b :: s' => (a =? b)%N && startsWith s' p'
  end.

(** [s.endsWith(p)] *)
Definition endsWith (s p : str) : bool := startsWith (rev s) (rev p).

(** [s.substring(n)] *)
Definition substring (n : nat) (s : str) : str := skipn n s.

(** [s.slice(a, -b)]: from index [a] up to [b] code units before the end;
    empty when the two bounds cross. *)
Definition slice (a b : nat) (s : str) : str :=
  firstn ((length s - b) - a) (skipn a s).

(** [s.split(sep)] for a one-code-unit separator: never an empty array. *)
Fixpoint split (sep : char) (s : str) : list str :=
  match s with
  | [] => [[]]
  | c :: s' =>
      if (c =? sep)%N then [] :: split sep s'
      else match split sep s' with
           | l :: ls => (c :: l) :: ls
           | [] => [[c]]
           end
  end.

(** [lines.join(sep)] *)
Fixpoint join (sep : str) (ls : list str) : str :=
  match ls with
  | [] => []
  | [l] => l
  | l :: ls' => l ++ sep ++ join sep ls'
  end.

(** [String.prototype.toLowerCase] follows the Unicode case tables, which
    are not reproduced here.  The development uses two facts about it:
    it never maps a non-empty string to the empty one, and on Basic Latin
    text it maps [A-Z] to [a-z] and leaves every other code unit alone. *)
Definition isAscii (c : char) : bool := (c <? 128)%N.

Definition lowerAscii (c : char) : char :=
  if ((65 <=? c) && (c <=? 90))%N then (c + 32)%N else c.

Class Runtime := {
  toLowerCase : str -> str;
  toLowerCase_nonempty : forall s, toLowerCase s = [] -> s = [];
  toLowerCase_ascii :
    forall s, forallb isAscii s = true -> toLowerCase s = List.map lowerAscii s
}.

End JS.

Import JS.

(** The runtime restricted to Basic Latin case mapping, used to evaluate
    the conversion on concrete ASCII documents. *)
Definition basicLatin : Runtime.
Proof.
  refine {| toLowerCase := List.map lowerAscii |}.
  - intros [|c s]; [reflexivity | discriminate].
  - reflexivity.
Defined.

(** ** The regular expressions of the source *)

Module Regex.

(** [.*?closer] at the end of a pattern, on the text [s] that starts at the
    current position: the lazy star first tries to stop, so the result is
    the least number [k] of code units, none of them a line terminator
    (the pattern has no [s] flag), after which [closer] follows. *)
Fixpoint lazy_dot_until (closer : str) (s : str) : option nat :=
  if startsWith s closer then Some 0
  else match s with
       | [] => None
       | c :: s' =>
           if isLineTerminator c then None
           else option_map S (lazy_dot_until closer s')
       end.

(** [opener .*? closer] anchored at the start of [s]; the length of the
    match. *)
Definition delimited (opener closer : str) (s : str) : option nat :=
  if startsWith s opener
  then option_map (fun k => length opener + k + length closer)
         (lazy_dot_until closer (skipn (length opener) s))
  else None.

Definition STARS2 : str := [STAR; STAR].
Definition STAR1 : str := [STAR].
Definition TICK1 : str := [BACKTICK].

(** [/(\*\*.*?\*\*|\*.*?\*|`.*?`)/] tried at the start of [s] (a sticky
    match, as [split] performs it): the alternatives are tried left to
    right and the first that matches wins.  The result is the length of
    the match, which is also capture group 1. *)
Definition inline_exec (s : str) : option nat :=
  match delimited STARS2 STARS2 s with
  | Some n => Some n
  | None =>
      match delimited STAR1 STAR1 s with
      | Some n => Some n
      | None => delimited TICK1 TICK1 s
      end
  end.

(** [text.split(regex)] for the pattern above.  The runtime scans the
    positions [q] from left to right, [pending] being the text since the
    end [p] of the last match; a match at [q] pushes [pending] and the
    captured match and moves both [p] and [q] behind it, which is modelled
    by skipping the [skip] code units that remain of the match.  The text
    after the last match is pushed at the end. *)
Fixpoint split_scan (s : str) (skip : nat) (pending : str) : list str :=
  match s with
  | [] => [pending]
  | c :: s' =>
      match skip with
      | S k => split_scan s' k pending
      | 0 =>
          match inline_exec s with
          | Some n => pending :: firstn n s :: split_scan s' (n - 1) []
          | None => split_scan s' 0 (pending ++ [c])
          end
      end
  end.

Definition split_inline (text : str) : list str := split_scan text 0 [].

(** [/^\d+\.\s/] on [s]: the length of the match.  The greedy [\d+] takes
    every leading digit; giving one back never helps, since the code unit
    that would have to be the period is then a digit. *)
Definition numbered_exec (s : str) : option nat :=
  let ds := takeWhile isDigit s in
  match ds, skipn (length ds) s with
  | _ :: _, d :: w :: _ =>
      if (d =? DOT)%N && isSpace w then Some (length ds + 2) else None
  | _, _ => None
  end.

(** [regex.test(s)] and [s.replace(regex, '')] for the pattern above. *)
Definition numbered_test (s : str) : bool :=
  match numbered_exec s with Some _ => true | None => false end.

Definition numbered_strip (s : str) : str :=
  match numbered_exec s with Some n => skipn n s | None => s end.

End Regex.

(** ** The rich-text objects and [parseRichText] *)

Inductive Style := Plain | Bold | Italic | Code.

(** [{ type: 'text', text: { content }, annotations }]; [Plain] stands for
    an object without annotations. *)
Record RichText := mkRichText { style : Style; content : str }.

Definition Style_eq_dec : forall a b : Style, {a = b} + {a <> b}.
Proof. decide equality. Defined.

Import Regex.

(** The body of the loop over the parts, returning the array after the
    step. *)
Definition pushPart (richText : list RichText) (part : str) : list RichText :=
  if falsy part then richText
  else if startsWith part STARS2 && endsWith part STARS2
          && (4 <? length part)
  then richText ++ [mkRichText Bold (slice 2 2 part)]
  else if startsWith part STAR1 && endsWith part STAR1
          && (2 <? length part)
  then richText ++ [mkRichText Italic (slice 1 1 part)]
  else if startsWith part TICK1 && endsWith part TICK1
          && (2 <? length part)
  then richText ++ [mkRichText Code (slice 1 1 part)]
  else richText ++ [mkRichText Plain part].

Definition parseRichText (text : str) : list RichText :=
  let parts := split_inline text in
  fold_left pushPart parts [].



(** ** The blocks and [markdownToBlocks] *)

Inductive BlockType :=
| heading_1 | heading_2 | heading_3
| bulleted_list_item | numbered_list_item
| quote | paragraph | code.

(** [{ object: 'block', type, [type]: { rich_text, language } }]; only a
    [code] block has a language. *)
Record Block := mkBlock {
  type : BlockType;
  rich_text : list RichText;
  language : option str
}.

Definition PLAIN_TEXT : str := Eval cbv in js "plain text".
Definition FENCE : str := [BACKTICK; BACKTICK; BACKTICK].
Definition H1 : str := [HASH; SPACE].
Definition H2 : str := [HASH; HASH; SPACE].
Definition H3 : str := [HASH; HASH; HASH; SPACE].
Definition BULLET : str := [DASH; SPACE].
Definition QUOTE : str := [GT; SPACE].

(** The local variables of the loop of [markdownToBlocks]. *)
Record ScanState := mkScan {
  blocks : list Block;
  inCodeBlock : bool;
  codeBlockLanguage : str;
  codeBlockContent : list str
}.

Definition initialScan : ScanState :=
  {| blocks := []; inCodeBlock := false;
     codeBlockLanguage := PLAIN_TEXT; codeBlockContent := [] |}.

(** The block pushed for a non-blank trimmed line outside a code block. *)
Definition lineBlock (trimmed : str) : Block :=
  if startsWith trimmed H1
  then mkBlock heading_1 [mkRichText Plain (substring 2 trimmed)] None
  else if startsWith trimmed H2
  then mkBlock heading_2 [mkRichText Plain (substring 3 trimmed)] None
  else if startsWith trimmed H3
  then mkBlock heading_3 [mkRichText Plain (substring 4 trimmed)] None
  else if startsWith trimmed BULLET
  then mkBlock bulleted_list_item (parseRichText (substring 2 trimmed)) None
  else if numbered_test trimmed
  then mkBlock numbered_list_item (parseRichText (numbered_strip trimmed)) None
  else if startsWith trimmed QUOTE
  then mkBlock quote (parseRichText (substring 2 trimmed)) None
  else mkBlock paragraph (parseRichText trimmed) None.

Section Classifier.

Context {RT : Runtime}.

(** The block pushed when a fence closes the code block. *)
Definition codeBlock (st : ScanState) : Block :=
  mkBlock code
    [mkRichText Plain (join [LF] (codeBlockContent st))]
    (Some (or_else (toLowerCase (codeBlockLanguage st)) PLAIN_TEXT)).

(** One iteration of the loop over the lines. *)
Definition scanLine (st : ScanState) (line : str) : ScanState :=
  if startsWith (trim line) FENCE then
    if inCodeBlock st then
      {| blocks := blocks st ++ [codeBlock st];
         inCodeBlock := false;
         codeBlockLanguage := PLAIN_TEXT;
         codeBlockContent := [] |}
    else
      let lang := trim (substring 3 (trim line)) in
      {| blocks := blocks st;
         inCodeBlock := true;
         codeBlockLanguage := if falsy lang then PLAIN_TEXT else lang;
         codeBlockContent := codeBlockContent st |}
  else if inCodeBlock st then
    {| blocks := blocks st;
       inCodeBlock := true;
       codeBlockLanguage := codeBlockLanguage st;
       codeBlockContent := codeBlockContent st ++ [line] |}
  else
    let trimmed := trim line in
    if falsy trimmed then st
    else
      {| blocks := blocks st ++ [lineBlock trimmed];
         inCodeBlock := false;
         codeBlockLanguage := codeBlockLanguage st;
         codeBlockContent := codeBlockContent st |}.

Definition scanLines (lines : list str) (st : ScanState) : ScanState :=
  fold_left scanLine lines st.

Definition markdownToBlocks (markdown : str) : list Block :=
  let lines := split LF markdown in
  blocks (scanLines lines initialScan).

End Classifier.

(** ** [createPage] *)

(** The optional [parentConfig] argument and the two defaults read from the
    configuration module.  An absent value is modelled as the empty string:
    the source only tests these values for truthiness and compares the
    type with ['database']. *)
Record ParentConfig := mkParentConfig { parent_type : str; parent_id : str }.

Record NotionConfig := mkNotionConfig {
  defaultParentType : str;
  defaultParentId : str
}.

Inductive Parent := database_id (id : str) | page_id (id : str).

(** The argument of [notion.pages.create]: the parent, the name of the
    title property, the title text and the body blocks. *)
Record PageRequest := mkPageRequest {
  parent : Parent;
  titleProperty : str;
  pageTitle : str;
  children : list Block
}.

(** [createPage] either throws before any request is made or sends one
    request to the document store. *)
Inductive Outcome :=
| Throw (message : str)
| Create (request : PageRequest).

Definition DATABASE : str := Eval cbv in js "database".
Definition NAME : str := Eval cbv in js "Name".
Definition TITLE : str := Eval cbv in js "title".
Definition NO_PARENT : str := Eval cbv in js "No Notion parent ID provided".

Definition resolveParentType (config : NotionConfig)
    (parentConfig : option ParentConfig) : str :=
  or_else (match parentConfig with Some pc => parent_type pc | None => [] end)
          (defaultParentType config).

Definition resolveParentId (config : NotionConfig)
    (parentConfig : option ParentConfig) : str :=
  or_else (match parentConfig with Some pc => parent_id pc | None => [] end)
          (defaultParentId config).

(** [children.shift()] when the first block is a [heading_1]. *)
Definition dropLeadingHeading (children : list Block) : list Block :=
  match children with
  | b :: rest =>
      match type b with
      | heading_1 => rest
      | _ => children
      end
  | [] => children
  end.

Section Page.

Context {RT : Runtime}.

Definition createPage (config : NotionConfig) (title contentMarkdown : str)
    (parentConfig : option ParentConfig) : Outcome :=
  let parentType := resolveParentType config parentConfig in
  let parentId := resolveParentId config parentConfig in
  if falsy parentId then Throw NO_PARENT
  else
    let children := markdownToBlocks contentMarkdown in
    let firstLine := trim (hd [] (split LF contentMarkdown)) in
    let '(pageTitle, children) :=
      if startsWith firstLine H1
      then (substring 2 firstLine, dropLeadingHeading children)
      else (title, children) in
    let isDatabase := if str_eq_dec parentType DATABASE then true else false in
    Create {| parent := if isDatabase then database_id parentId
                        else page_id parentId;
              titleProperty := if isDatabase then NAME else TITLE;
              pageTitle := pageTitle;
              children := children |}.

End Page.

(** A document given line by line. *)
Definition doc (lines : list str) : str := join [LF] lines.

(** ** Vocabulary of the properties *)

(** The runs that one part of the split adds to the array. *)
Definition partRuns (part : str) : list RichText := pushPart [] part.

(** The text carried by a sequence of runs, styles ignored. *)
Definition runsText (runs : list RichText) : str :=
  concat (List.map content runs).

(** A text without asterisk and backtick. *)
Definition noDelimiters (s : str) : bool :=
  forallb (fun c => negb (c =? STAR)%N && negb (c =? BACKTICK)%N) s.

(** A bold payload: no line terminator, and every asterisk is followed by
    a code unit that is not an asterisk. *)
Fixpoint boldPayload (x : str) : bool :=
  match x with
  | [] => true
  | c :: x' =>
      negb (isLineTerminator c)
      && (if (c =? STAR)%N
          then match x' with
               | d :: _ => negb (d =? STAR)%N
               | [] => false
               end
          else true)
      && boldPayload x'
  end.

(** Whether no two neighbouring runs have the same style. *)
Fixpoint adjacentStylesDiffer (runs : list RichText) : bool :=
  match runs with
  | r1 :: rest =>
      match rest with
      | r2 :: _ =>
          (if Style_eq_dec (style r1) (style r2) then false else true)
          && adjacentStylesDiffer rest
      | [] => true
      end
  | [] => true
  end.

(** The two tests of the loop on a line: a fence marker, and nothing left
    after trimming. *)
Definition isFence (line : str) : bool := startsWith (trim line) FENCE.
Definition isBlank (line : str) : bool := falsy (trim line).

(** The state after a block was pushed outside a code block. *)
Definition pushBlock (st : ScanState) (b : Block) : ScanState :=
  {| blocks := blocks st ++ [b];
     inCodeBlock := false;
     codeBlockLanguage := codeBlockLanguage st;
     codeBlockContent := codeBlockContent st |}.

(** Outside a code block the language and the accumulator are at rest. *)
Definition atRest (st : ScanState) : Prop :=
  inCodeBlock st = false ->
  codeBlockLanguage st = PLAIN_TEXT /\ codeBlockContent st = [].

(** Lines that do not toggle the code-block mode. *)
Definition noFence (lines : list str) : bool :=
  forallb (fun l => negb (isFence l)) lines.

(** A line holds no line break. *)
Definition noLF (l : str) : Prop := ~ In LF l.

(** The same state with more blocks already pushed. *)
Definition prependBlocks (bs : list Block) (st : ScanState) : ScanState :=
  {| blocks := bs ++ blocks st;
     inCodeBlock := inCodeBlock st;
     codeBlockLanguage := codeBlockLanguage st;
     codeBlockContent := codeBlockContent st |}.

(** The tag of an opening fence line: the text after the three backticks of
    the trimmed line, trimmed. *)
Definition fenceTag (opening : str) : str :=
  trim (substring 3 (trim opening)).

(** The lower-cased tag, or [plain text] for an empty tag. *)
Definition fenceLanguage {RT : Runtime} (opening : str) : str :=
  if falsy (fenceTag opening) then PLAIN_TEXT
  else toLowerCase (fenceTag opening).

(** Sample data. *)
Definition QUOTE_MARK : char := 34%N.

(** The line [print("hi")]. *)
Definition PRINT_HI : str :=
  js "print(" ++ [QUOTE_MARK] ++ js "hi" ++ [QUOTE_MARK] ++ js ")".

Definition sampleConfig : NotionConfig :=
  {| defaultParentType := js "page"; defaultParentId := js "parent-1" |}.

(** ** The webhook of [index.ts] *)

(** What the [validateAuth] middleware does with a request: it answers
    with a status and an error message, or hands over with [next()]. *)
Inductive AuthOutcome :=
| Respond (status : nat) (error_message : str)
| next.

Definition BEARER : str := Eval cbv in js "Bearer ".
Definition MISSING_HEADER : str :=
  Eval cbv in js "Missing or invalid Authorization header".
Definition INVALID_TOKEN : str := Eval cbv in js "Invalid secret token".

Definition option_str_eq_dec :
  forall a b : option str, {a = b} + {a <> b}.
Proof. decide equality. apply str_eq_dec. Defined.

(** [validateAuth]: the [authorization] header and the configured secret
    are strings or [undefined].  [token] is the second piece of the header
    split at spaces, compared with [!==]. *)
Definition validateAuth (webhookSecret authorization : option str)
    : AuthOutcome :=
  match authorization with
  | None => Respond 401 MISSING_HEADER
  | Some authHeader =>
      if falsy authHeader || negb (startsWith authHeader BEARER)
      then Respond 401 MISSING_HEADER
      else
        let token := nth_error (split SPACE authHeader) 1 in
        if option_str_eq_dec token webhookSecret then next
        else Respond 401 INVALID_TOKEN
  end.

Definition NO_PARENT_WEBHOOK : str :=
  Eval cbv in js "No Notion parent ID provided in request or config".

Section Webhook.

Context {RT : Runtime}.

(** Step 3 of the webhook handler: the parent is the [notion_parent] of the
    request body or else the two defaults of the configuration; without an
    id the handler throws, otherwise it calls [createPage]. *)
Definition webhookCreatePage (config : NotionConfig)
    (notion_parent : option ParentConfig) (videoTitle howToContent : str)
    : Outcome :=
  let parentConfig :=
    match notion_parent with
    | Some pc => pc
    | None => {| parent_type := defaultParentType config;
                 parent_id := defaultParentId config |}
    end in
  if falsy (parent_id parentConfig) then Throw NO_PARENT_WEBHOOK
  else createPage config videoTitle howToContent (Some parentConfig).

End Webhook.

(** ** [extractVideoId] of [services/transcript.ts] *)

(** What [\w] matches. *)
Definition isWordChar (c : char) : bool :=
  (((65 <=? c) && (c <=? 90)) || ((97 <=? c) && (c <=? 122))
   || ((48 <=? c) && (c <=? 57)) || (c =? 95))%N.

(** What [[^#\&\?]] matches. *)
Definition isIdChar (c : char) : bool :=
  negb ((c =? 35) || (c =? 38) || (c =? 63))%N.

Definition YOUTU : str := Eval cbv in js "youtu".
Definition BE_SLASH : str := Eval cbv in js "be/".
Definition V_SLASH : str := Eval cbv in js "v/".
Definition U_SLASH : str := Eval cbv in js "u/".
Definition SLASH : str := Eval cbv in js "/".
Definition EMBED : str := Eval cbv in js "embed/".
Definition WATCH : str := Eval cbv in js "watch?v=".
Definition AMP_V : str := Eval cbv in js "&v=".

(** Capture group 1, [(youtu.be\/|v\/|u\/\w\/|embed\/|watch\?v=|\&v=)],
    tried at the start of [s]: the length of the match.  The period of the
    first alternative is not escaped and stands for any code unit but a
    line terminator. *)
Definition group1_exec (s : str) : option nat :=
  if startsWith s YOUTU
     && match skipn 5 s with
        | c :: _ => negb (isLineTerminator c)
        | [] => false
        end
     && startsWith (skipn 6 s) BE_SLASH
  then Some 9
  else if startsWith s V_SLASH then Some 2
  else if startsWith s U_SLASH
          && match skipn 2 s with
             | c :: _ => isWordChar c
             | [] => false
             end
          && startsWith (skipn 3 s) SLASH
  then Some 4
  else if startsWith s EMBED then Some 6
  else if startsWith s WATCH then Some 8
  else if startsWith s AMP_V then Some 3
  else None.

(** [^.*] followed by group 1: the greedy star takes as many code units
    as it can, none of them a line terminator, and gives them back one by
    one until group 1 matches; the result is the text behind group 1.
    Nothing behind group 1 can fail, so the first success is the match. *)
Fixpoint after_group1 (s : str) : option str :=
  match s with
  | [] => None
  | c :: s' =>
      match (if isLineTerminator c then None else after_group1 s') with
      | Some r => Some r
      | None => option_map (fun g => skipn g s) (group1_exec s)
      end
  end.

(** [url.match(regExp)] and the test on the length of group 2, the
    longest run of code units other than [#], [&] and [?]. *)
Definition extractVideoId (url : str) : option str :=
  match after_group1 url with
  | Some r =>
      let group2 := takeWhile isIdChar r in
      if length group2 =? 11 then Some group2 else None
  | None => None
  end.

(** ** Vocabulary of the further properties *)

(** A run of plain text, none for the empty text. *)
Definition plainRuns (p : str) : list RichText :=
  if falsy p then [] else [mkRichText Plain p].

Definition noStar (x : str) : bool :=
  forallb (fun c => negb (c =? STAR)%N) x.
Definition noBacktick (x : str) : bool :=
  forallb (fun c => negb (c =? BACKTICK)%N) x.
Definition noLineTerminator (x : str) : bool :=
  forallb (fun c => negb (isLineTerminator c)) x.

(** [keepsText s t]: [t] is [s] with some asterisks and backticks left out
    and every other code unit kept, in the same order. *)
Inductive keepsText : str -> str -> Prop :=
| keeps_nil : keepsText [] []
| keeps_cons (c : char) (s t : str) :
    keepsText s t -> keepsText (c :: s) (c :: t)
| keeps_drop (c : char) (s t : str) :
    c = STAR \/ c = BACKTICK -> keepsText s t -> keepsText (c :: s) t.

(** The number of fence lines and of [code] blocks. *)
Definition fenceCount (lines : list str) : nat :=
  length (filter isFence lines).

Definition isCode (b : Block) : bool :=
  match type b with code => true | _ => false end.

Definition codeCount (bs : list Block) : nat := length (filter isCode bs).

(** A block as the document store expects it: a [code] block has a
    non-empty language and one un-annotated run; any other block has no
    language and at least one run, each with text. *)
Definition wellFormed (b : Block) : Prop :=
  match type b with
  | code =>
      (exists lang, language b = Some lang /\ lang <> [])
      /\ exists text, rich_text b = [mkRichText Plain text]
  | _ =>
      language b = None /\ rich_text b <> []
      /\ Forall (fun r => content r <> []) (rich_text b)
  end.

(** No alternative of group 1 matches at any position of [s]. *)
Fixpoint markerFree (s : str) : bool :=
  match s with
  | [] => true
  | _ :: s' =>
      match group1_exec s with Some _ => false | None => markerFree s' end
  end.

Definition YOUTU_BE : str := Eval cbv in js "youtu.be/".

Definition TAB : char := 9%N.

(** The code units of a video id: letters, digits, underscore, hyphen. *)
Definition isVideoIdChar (c : char) : bool := isWordChar c || (c =? 45)%N.

(** The id that a request is handed to the document store with. *)
Definition parentIdOf (p : Parent) : str :=
  match p with database_id i => i | page_id i => i end.

(** * Properties *)

(** ** Built-ins *)

Lemma startsWith_app (p s : str) : startsWith (p ++ s) p = true.
Proof.
  induction p as [|a p IH]; simpl; [reflexivity|].
  now rewrite N.eqb_refl, IH.
Qed.

Lemma startsWith_inv (s p : str) :
  startsWith s p = true -> exists r, s = p ++ r.
Proof.
  revert s; induction p as [|a p IH]; intros s H.
  - now exists s.
  - destruct s as [|b s]; simpl in H; [discriminate|].
    apply andb_true_iff in H as [Hab Hs].
    apply N.eqb_eq in Hab; subst b.
    destruct (IH _ Hs) as [r ->]. now exists r.
Qed.

Lemma startsWith_head_neq (c a : char) (s p : str) :
  c <> a -> startsWith (c :: s) (a :: p) = false.
Proof.
  intros H; simpl. apply N.eqb_neq in H.
  rewrite N.eqb_sym in H. now rewrite H.
Qed.

Lemma endsWith_app (s p : str) : endsWith (s ++ p) p = true.
Proof. unfold endsWith. rewrite rev_app_distr. apply startsWith_app. Qed.

Lemma length_slice (a b : nat) (s : str) :
  length (slice a b s) = length s - b - a.
Proof.
  unfold slice. rewrite length_firstn, length_skipn. lia.
Qed.

Lemma slice_delimited (o x c : str) :
  slice (length o) (length c) (o ++ x ++ c) = x.
Proof.
  unfold slice. rewrite skipn_app, skipn_all, Nat.sub_diag; simpl.
  rewrite !length_app.
  replace (length o + (length x + length c) - length c - length o)
    with (length x + 0) by lia.
  rewrite firstn_app_2. simpl. apply app_nil_r.
Qed.

Lemma falsy_false_length (s : str) : falsy s = false <-> 0 < length s.
Proof. destruct s; simpl; split; intros; (lia || congruence). Qed.

Lemma falsy_true (s : str) : falsy s = true <-> s = [].
Proof. destruct s; simpl; split; congruence. Qed.

(** ** The inline regular expression and its [split] *)

Lemma lazy_dot_until_bound (closer s : str) (k : nat) :
  lazy_dot_until closer s = Some k -> k + length closer <= length s.
Proof.
  revert k; induction s as [|c s IH]; intros k; simpl.
  - destruct (startsWith [] closer) eqn:E; [|discriminate].
    intros [= <-]. apply startsWith_inv in E as [r E].
    apply (f_equal (@length _)) in E. rewrite length_app in E. simpl in *. lia.
  - destruct (startsWith (c :: s) closer) eqn:E.
    + intros [= <-]. apply startsWith_inv in E as [r E].
      apply (f_equal (@length _)) in E. rewrite length_app in E. simpl in *. lia.
    + destruct (isLineTerminator c); [discriminate|].
      destruct (lazy_dot_until closer s) as [k'|]; [|discriminate].
      intros [= <-]. specialize (IH _ eq_refl). simpl. lia.
Qed.

Lemma delimited_bound (o c s : str) (n : nat) :
  delimited o c s = Some n -> length o + length c <= n <= length s.
Proof.
  unfold delimited. destruct (startsWith s o) eqn:E; [|discriminate].
  destruct (lazy_dot_until c (skipn (length o) s)) as [k|] eqn:L; [|discriminate].
  intros [= <-]. apply lazy_dot_until_bound in L.
  apply startsWith_inv in E as [r ->].
  rewrite skipn_app, skipn_all, Nat.sub_diag in L. simpl in L.
  rewrite length_app. lia.
Qed.

Lemma inline_exec_bound (s : str) (n : nat) :
  inline_exec s = Some n -> 2 <= n <= length s.
Proof.
  unfold inline_exec.
  destruct (delimited STARS2 STARS2 s) eqn:E1.
  { intros [= <-]. apply delimited_bound in E1. simpl in E1. lia. }
  destruct (delimited STAR1 STAR1 s) eqn:E2.
  { intros [= <-]. apply delimited_bound in E2. simpl in E2. lia. }
  intros E3. apply delimited_bound in E3. simpl in E3. lia.
Qed.

Lemma delimited_head (o c : str) (a b : char) (s : str) :
  a <> b -> delimited (b :: o) c (a :: s) = None.
Proof.
  intros H. unfold delimited. now rewrite startsWith_head_neq.
Qed.

(** No match starts at a code unit that is neither an asterisk nor a
    backtick. *)
Lemma inline_exec_head (a : char) (s : str) :
  a <> STAR -> a <> BACKTICK -> inline_exec (a :: s) = None.
Proof.
  intros H1 H2. unfold inline_exec, STARS2, STAR1, TICK1.
  now rewrite !delimited_head.
Qed.

(** Skipping the rest of a match is the jump of the runtime to the end of
    the match. *)
Lemma split_scan_skip (s : str) (k : nat) (p : str) :
  split_scan s k p = split_scan (skipn k s) 0 p.
Proof.
  revert k; induction s as [|c s IH]; intros [|k]; try reflexivity.
  simpl skipn. rewrite <- IH. reflexivity.
Qed.

Lemma split_scan_match (s : str) (n : nat) (p : str) :
  inline_exec s = Some n ->
  split_scan s 0 p = p :: firstn n s :: split_scan (skipn n s) 0 [].
Proof.
  intros E. pose proof (inline_exec_bound _ _ E) as B.
  destruct s as [|c s]; [simpl in B; lia|].
  cbn [split_scan]. rewrite E, split_scan_skip.
  destruct n as [|n]; [lia|]. simpl. now rewrite Nat.sub_0_r.
Qed.

Lemma split_scan_nomatch (c : char) (s p : str) :
  inline_exec (c :: s) = None ->
  split_scan (c :: s) 0 p = split_scan s 0 (p ++ [c]).
Proof. intros E. cbn [split_scan]. now rewrite E. Qed.

(** The parts of a split, glued back, are the text: nothing is lost and
    nothing is added. *)
Lemma split_scan_concat (s : str) (k : nat) (p : str) :
  concat (split_scan s k p) = p ++ skipn k s.
Proof.
  revert k p; induction s as [|c s IH]; intros k p.
  - simpl. rewrite skipn_nil. reflexivity.
  - destruct k as [|k]; cbn [split_scan].
    + destruct (inline_exec (c :: s)) as [n|] eqn:E.
      * pose proof (inline_exec_bound _ _ E) as B.
        destruct n as [|n]; [lia|].
        cbn [concat]. rewrite IH. simpl. rewrite Nat.sub_0_r.
        now rewrite firstn_skipn.
      * rewrite IH. simpl. now rewrite <- app_assoc.
    + rewrite IH. reflexivity.
Qed.

Lemma split_inline_concat (text : str) : concat (split_inline text) = text.
Proof. unfold split_inline. now rewrite split_scan_concat. Qed.

(** ** [parseRichText] as a map over the parts *)

Lemma pushPart_app (richText : list RichText) (part : str) :
  pushPart richText part = richText ++ partRuns part.
Proof.
  unfold partRuns, pushPart.
  repeat match goal with |- context [if ?b then _ else _] => destruct b end;
    simpl; now rewrite ?app_nil_r.
Qed.

Lemma fold_pushPart (parts : list str) (richText : list RichText) :
  fold_left pushPart parts richText = richText ++ flat_map partRuns parts.
Proof.
  revert richText; induction parts as [|p ps IH]; intros rt; simpl.
  - now rewrite app_nil_r.
  - rewrite IH, pushPart_app, <- app_assoc. reflexivity.
Qed.

Lemma parseRichText_flat_map (text : str) :
  parseRichText text = flat_map partRuns (split_inline text).
Proof. unfold parseRichText. now rewrite fold_pushPart. Qed.

(** Every run pushed for a part has text, and a part with text pushes a
    run. *)
Lemma partRuns_content (part : str) :
  Forall (fun r => content r <> []) (partRuns part).
Proof.
  unfold partRuns, pushPart.
  destruct (falsy part) eqn:F; [constructor|].
  assert (nonempty : forall (s : str), 0 < length s -> s <> [])
    by (intros [|] ?; simpl in *; [lia | discriminate]).
  repeat match goal with
         | |- context [if ?b then _ else _] => destruct b eqn:?
         end; simpl; repeat constructor; simpl;
    repeat match goal with
           | H : _ && _ = true |- _ => apply andb_true_iff in H as [? H]
           | H : (_ <? _) = true |- _ => apply Nat.ltb_lt in H
           end;
    try (apply nonempty; rewrite length_slice; lia).
  now apply nonempty, falsy_false_length.
Qed.

Lemma partRuns_nil (part : str) : partRuns part = [] -> part = [].
Proof.
  unfold partRuns, pushPart. destruct part; [reflexivity|]. simpl falsy. cbv iota.
  repeat match goal with |- context [if ?b then _ else _] => destruct b end;
    discriminate.
Qed.

Lemma runsText_nil_parts (parts : list str) :
  runsText (flat_map partRuns parts) = [] -> concat parts = [].
Proof.
  unfold runsText. induction parts as [|p ps IH]; simpl; [reflexivity|].
  rewrite map_app, concat_app. intros H.
  apply app_eq_nil in H as [Hp Hps]. rewrite (IH Hps), app_nil_r.
  apply partRuns_nil.
  pose proof (partRuns_content p) as C.
  destruct (partRuns p) as [|r rs]; [reflexivity|].
  inversion C as [|? ? Hr _]; subst. simpl in Hp.
  apply app_eq_nil in Hp as [Hp _]. contradiction.
Qed.

Lemma runsText_nil (line : str) :
  runsText (parseRichText line) = [] -> line = [].
Proof.
  rewrite parseRichText_flat_map. intros H.
  apply runsText_nil_parts in H. now rewrite split_inline_concat in H.
Qed.

Lemma split_scan_plain (s p : str) :
  noDelimiters s = true -> split_scan s 0 p = [p ++ s].
Proof.
  revert p; induction s as [|c s IH]; intros p H; simpl in H.
  - simpl. now rewrite app_nil_r.
  - apply andb_true_iff in H as [Hc Hs].
    apply andb_true_iff in Hc as [H1 H2].
    apply negb_true_iff, N.eqb_neq in H1, H2.
    rewrite split_scan_nomatch by now apply inline_exec_head.
    rewrite IH by assumption. now rewrite <- app_assoc.
Qed.

Lemma parseRichText_plain (s : str) :
  noDelimiters s = true ->
  parseRichText s = if falsy s then [] else [mkRichText Plain s].
Proof.
  intros H. rewrite parseRichText_flat_map. unfold split_inline.
  rewrite split_scan_plain by assumption. simpl. rewrite app_nil_r.
  destruct s as [|c s]; [reflexivity|].
  simpl in H. apply andb_true_iff in H as [Hc _].
  apply andb_true_iff in Hc as [H1 H2].
  apply negb_true_iff, N.eqb_neq in H1, H2.
  unfold partRuns, pushPart, STARS2, STAR1, TICK1. cbn [falsy].
  now rewrite !startsWith_head_neq.
Qed.

Lemma lazy_dot_until_boldPayload (x : str) :
  boldPayload x = true ->
  lazy_dot_until STARS2 (x ++ STARS2) = Some (length x).
Proof.
  induction x as [|c x IH]; intros H; [reflexivity|].
  cbn [boldPayload] in H.
  apply andb_true_iff in H as [H Hx].
  apply andb_true_iff in H as [Hlt Hstar].
  apply negb_true_iff in Hlt.
  cbn [app lazy_dot_until]. rewrite Hlt, (IH Hx).
  replace (startsWith (c :: x ++ STARS2) STARS2) with false; [reflexivity|].
  unfold STARS2 at 2. cbn [startsWith].
  rewrite (N.eqb_sym STAR c).
  destruct (c =? STAR)%N; [|reflexivity].
  destruct x as [|d x]; [discriminate|].
  cbn [app startsWith]. rewrite (N.eqb_sym STAR d).
  apply negb_true_iff in Hstar. now rewrite Hstar.
Qed.

Lemma parseRichText_bold (x : str) :
  x <> [] -> boldPayload x = true ->
  parseRichText (STARS2 ++ x ++ STARS2) = [mkRichText Bold x].
Proof.
  intros Hne Hx.
  assert (E : inline_exec (STARS2 ++ x ++ STARS2)
              = Some (length (STARS2 ++ x ++ STARS2))).
  { unfold inline_exec, delimited. rewrite startsWith_app.
    rewrite skipn_app, skipn_all, Nat.sub_diag. cbn [skipn app].
    rewrite (lazy_dot_until_boldPayload _ Hx). cbn [option_map].
    rewrite !length_app. f_equal; simpl; lia. }
  rewrite parseRichText_flat_map. unfold split_inline.
  rewrite (split_scan_match _ _ [] E), firstn_all, skipn_all.
  cbn [split_scan flat_map]. rewrite app_nil_r.
  change (partRuns []) with (@nil RichText). cbn [app].
  unfold partRuns, pushPart.
  assert (L : 4 < length (STARS2 ++ x ++ STARS2)).
  { rewrite !length_app. destruct x; [congruence|]. simpl. lia. }
  replace (falsy (STARS2 ++ x ++ STARS2)) with false
    by (symmetry; apply falsy_false_length; lia).
  rewrite startsWith_app.
  replace (endsWith (STARS2 ++ x ++ STARS2) STARS2) with true
    by (now rewrite app_assoc, endsWith_app).
  apply Nat.ltb_lt in L. rewrite L. cbn [andb app].
  pose proof (slice_delimited STARS2 x STARS2) as S.
  change (length STARS2) with 2 in S. now rewrite S.
Qed.

(** ** The inline span parser *)

(** C1 (evaluation at the failing input).  The text [****] is one match of
    the bold alternative with an empty payload.  It fails the length guard
    of the bold branch, then passes the test of the italic branch and is
    pushed as an Italic run with content [**], not as Plain text; the lone
    [**] and the empty backtick pair are pushed as Plain text. *)
Theorem empty_bold_match_pushed_as_italic :
  split_inline (js "****") = [[]; js "****"; []]
  /\ parseRichText (js "****") = [mkRichText Italic (js "**")]
  /\ @markdownToBlocks basicLatin (js "a **** b")
     = [mkBlock paragraph
          [mkRichText Plain (js "a "); mkRichText Italic (js "**");
           mkRichText Plain (js " b")] None]
  /\ parseRichText (js "**") = [mkRichText Plain (js "**")]
  /\ parseRichText (js "``") = [mkRichText Plain (js "``")].
Proof. repeat split; vm_compute; reflexivity. Qed.

(** C2 (counterexample).  The line [*a**b*] is parsed into two neighbouring
    Italic runs, and [**x] into two neighbouring Plain runs: nothing merges
    runs of equal style. *)
Lemma adjacent_italic_runs :
  parseRichText (js "*a**b*")
  = [mkRichText Italic (js "a"); mkRichText Italic (js "b")]
  /\ adjacentStylesDiffer (parseRichText (js "*a**b*")) = false
  /\ parseRichText (js "**x")
     = [mkRichText Plain (js "**"); mkRichText Plain (js "x")]
  /\ adjacentStylesDiffer (parseRichText (js "**x")) = false.
Proof. repeat split; vm_compute; reflexivity. Qed.

(** C2 (amended).  For every input line, no run returned by [parseRichText]
    has an empty content. *)
Theorem parseRichText_no_empty_run (text : str) :
  Forall (fun r => content r <> []) (parseRichText text).
Proof.
  rewrite parseRichText_flat_map.
  induction (split_inline text) as [|p ps IH]; simpl; [constructor|].
  apply Forall_app. split; [apply partRuns_content | exact IH].
Qed.

(** C9.  A text without delimiters is parsed into one Plain run holding
    the whole text, the empty text into no run; so the text of the runs
    of any line, when it holds no delimiter, is parsed again into one
    Plain run equal to it (into no run for the empty line). *)
Theorem reparse_without_delimiters :
  (forall s : str,
      noDelimiters s = true ->
      parseRichText s = if falsy s then [] else [mkRichText Plain s])
  /\ parseRichText [] = []
  /\ (forall line : str,
        noDelimiters (runsText (parseRichText line)) = true ->
        parseRichText (runsText (parseRichText line))
        = if falsy line then []
          else [mkRichText Plain (runsText (parseRichText line))]).
Proof.
  split; [exact parseRichText_plain|]. split; [reflexivity|].
  intros line H. rewrite (parseRichText_plain _ H).
  destruct line as [|c line]; [reflexivity|].
  destruct (runsText (parseRichText (c :: line))) eqn:E; [|reflexivity].
  apply runsText_nil in E. discriminate.
Qed.

Lemma reparse_without_delimiters_witness :
  noDelimiters (js "Open the menu") = true
  /\ parseRichText (js "Open the menu") = [mkRichText Plain (js "Open the menu")]
  /\ noDelimiters (runsText (parseRichText (js "a **b** `c`"))) = true
  /\ parseRichText (runsText (parseRichText (js "a **b** `c`")))
     = [mkRichText Plain (js "a b c")].
Proof.
  split; [reflexivity|]. split.
  - exact (proj1 reparse_without_delimiters (js "Open the menu") eq_refl).
  - split; [reflexivity|].
    exact (proj2 (proj2 reparse_without_delimiters) (js "a **b** `c`") eq_refl).
Defined.

(** ** The numbered-item pattern *)

Lemma isDigit_not_marker (d : char) :
  isDigit d = true ->
  d <> HASH /\ d <> DASH /\ d <> BACKTICK /\ d <> GT /\ d <> DOT.
Proof.
  unfold isDigit, HASH, DASH, BACKTICK, GT, DOT. intros H.
  apply andb_true_iff in H as [H1 H2].
  apply N.leb_le in H1, H2. repeat split; lia.
Qed.

Lemma takeWhile_app_stop (p : char -> bool) (ds : str) (c : char) (r : str) :
  forallb p ds = true -> p c = false -> takeWhile p (ds ++ c :: r) = ds.
Proof.
  intros Hds Hc. induction ds as [|d ds IH]; simpl in *.
  - now rewrite Hc.
  - apply andb_true_iff in Hds as [Hd Hds]. now rewrite Hd, IH.
Qed.



(** ** The line scanner *)

Section ClassifierFacts.

Context {RT : Runtime}.

Lemma scanLine_outside (st : ScanState) (line : str) :
  inCodeBlock st = false -> isFence line = false ->
  scanLine st line
  = if isBlank line then st else pushBlock st (lineBlock (trim line)).
Proof.
  intros Hin Hf. unfold scanLine, isBlank, pushBlock.
  unfold isFence in Hf. now rewrite Hf, Hin.
Qed.

Lemma scanLine_inside (st : ScanState) (line : str) :
  inCodeBlock st = true -> isFence line = false ->
  scanLine st line
  = {| blocks := blocks st; inCodeBlock := true;
       codeBlockLanguage := codeBlockLanguage st;
       codeBlockContent := codeBlockContent st ++ [line] |}.
Proof.
  intros Hin Hf. unfold scanLine. unfold isFence in Hf. now rewrite Hf, Hin.
Qed.

Lemma scanLine_open (st : ScanState) (line : str) :
  inCodeBlock st = false -> isFence line = true ->
  scanLine st line
  = {| blocks := blocks st; inCodeBlock := true;
       codeBlockLanguage :=
         (if falsy (trim (substring 3 (trim line))) then PLAIN_TEXT
          else trim (substring 3 (trim line)));
       codeBlockContent := codeBlockContent st |}.
Proof.
  intros Hin Hf. unfold scanLine. unfold isFence in Hf. now rewrite Hf, Hin.
Qed.

Lemma scanLine_close (st : ScanState) (line : str) :
  inCodeBlock st = true -> isFence line = true ->
  scanLine st line
  = {| blocks := blocks st ++ [codeBlock st]; inCodeBlock := false;
       codeBlockLanguage := PLAIN_TEXT; codeBlockContent := [] |}.
Proof.
  intros Hin Hf. unfold scanLine. unfold isFence in Hf. now rewrite Hf, Hin.
Qed.

Lemma scanLines_app (a b : list str) (st : ScanState) :
  scanLines (a ++ b) st = scanLines b (scanLines a st).
Proof. apply fold_left_app. Qed.

Lemma scanLine_atRest (st : ScanState) (line : str) :
  atRest st -> atRest (scanLine st line).
Proof.
  intros H. unfold scanLine.
  destruct (startsWith (trim line) FENCE), (inCodeBlock st) eqn:E.
  - intros _. split; reflexivity.
  - intros Hf. discriminate Hf.
  - intros Hf. discriminate Hf.
  - destruct (falsy (trim line)); [exact H|].
    intros _. simpl. exact (H E).
Qed.

Lemma scanLines_atRest (lines : list str) (st : ScanState) :
  atRest st -> atRest (scanLines lines st).
Proof.
  revert st; induction lines as [|l ls IH]; intros st H; [exact H|].
  simpl. apply IH, scanLine_atRest, H.
Qed.

Lemma initialScan_atRest : atRest initialScan.
Proof. intros _. split; reflexivity. Qed.

(** Without fence lines the scanner stays outside code blocks and pushes
    one block per line that is not blank. *)
Lemma scanLines_without_fences (lines : list str) (st : ScanState) :
  noFence lines = true ->
  inCodeBlock st = false ->
  inCodeBlock (scanLines lines st) = false
  /\ length (blocks (scanLines lines st))
     = length (blocks st)
       + length (filter (fun l => negb (isBlank l)) lines).
Proof.
  revert st; induction lines as [|l ls IH]; intros st Hf Hin; simpl.
  - split; [assumption | lia].
  - simpl in Hf. apply andb_true_iff in Hf as [Hl Hls].
    apply negb_true_iff in Hl.
    rewrite (scanLine_outside st l Hin Hl).
    destruct (isBlank l); simpl.
    + now apply IH.
    + destruct (IH (pushBlock st (lineBlock (trim l))) Hls eq_refl) as [A B].
      split; [exact A|]. rewrite B. simpl. rewrite length_app. simpl. lia.
Qed.

(** ** Block count and single lines *)

(** C6.  For a document without fence lines, [markdownToBlocks] returns as
    many blocks as the document has lines that are not blank after
    trimming; the empty document yields no block. *)
Theorem block_count_without_fences :
  (forall markdown : str,
      noFence (split LF markdown) = true ->
      length (markdownToBlocks markdown)
      = length (filter (fun l => negb (isBlank l)) (split LF markdown)))
  /\ markdownToBlocks [] = [].
Proof.
  split; [|reflexivity].
  intros markdown H. unfold markdownToBlocks.
  now destruct (scanLines_without_fences (split LF markdown) initialScan H eq_refl).
Qed.


Lemma scanLine_headings (st : ScanState) (line : str) :
  inCodeBlock st = false ->
  (startsWith (trim line) H1 = true ->
   scanLine st line
   = pushBlock st (mkBlock heading_1
                     [mkRichText Plain (substring 2 (trim line))] None))
  /\ (startsWith (trim line) H2 = true ->
      scanLine st line
      = pushBlock st (mkBlock heading_2
                        [mkRichText Plain (substring 3 (trim line))] None))
  /\ (startsWith (trim line) H3 = true ->
      scanLine st line
      = pushBlock st (mkBlock heading_3
                        [mkRichText Plain (substring 4 (trim line))] None)).
Proof.
  intros Hin.
  repeat split; intros H; pose proof H as P;
    apply startsWith_inv in P as [r P];
    (rewrite scanLine_outside;
     [ unfold isBlank, lineBlock; rewrite P; reflexivity
     | assumption
     | unfold isFence; rewrite P; reflexivity ]).
Qed.


(** ** Fenced regions *)

Lemma scanLines_inside (body : list str) (st : ScanState) :
  inCodeBlock st = true -> noFence body = true ->
  scanLines body st
  = {| blocks := blocks st; inCodeBlock := true;
       codeBlockLanguage := codeBlockLanguage st;
       codeBlockContent := codeBlockContent st ++ body |}.
Proof.
  revert st; induction body as [|l ls IH]; intros st Hin Hf; simpl.
  - rewrite app_nil_r. destruct st; simpl in *. now subst.
  - simpl in Hf. apply andb_true_iff in Hf as [Hl Hls].
    apply negb_true_iff in Hl.
    rewrite (scanLine_inside st l Hin Hl), IH by (reflexivity || assumption).
    simpl. now rewrite <- app_assoc.
Qed.

(** A scan that ends inside a code block either started inside one and
    met no fence, or met a last opening fence that nothing closes. *)
Lemma scanLines_ends_inside (lines : list str) (st : ScanState) :
  inCodeBlock (scanLines lines st) = true ->
  (inCodeBlock st = true /\ noFence lines = true)
  \/ exists pre opening body,
       lines = pre ++ opening :: body
       /\ isFence opening = true
       /\ noFence body = true
       /\ inCodeBlock (scanLines pre st) = false.
Proof.
  revert st; induction lines as [|l ls IH]; intros st H.
  - left. split; [exact H | reflexivity].
  - simpl in H. destruct (IH _ H) as [[Hin Hf] | (pre & o & body & E & Ho & Hb & Hp)].
    + destruct (isFence l) eqn:Fl, (inCodeBlock st) eqn:Is.
      * rewrite (scanLine_close st l Is Fl) in Hin. discriminate.
      * right. exists [], l, ls. repeat split; assumption.
      * left. split; [reflexivity|]. simpl. now rewrite Fl.
      * rewrite (scanLine_outside st l Is Fl) in Hin.
        destruct (isBlank l); simpl in Hin; congruence.
    + right. exists (l :: pre), o, body. subst ls. repeat split; assumption.
Qed.

Lemma scanLines_unterminated (pre body : list str) (opening : str)
    (st : ScanState) :
  inCodeBlock (scanLines pre st) = false ->
  isFence opening = true -> noFence body = true ->
  blocks (scanLines (pre ++ opening :: body) st) = blocks (scanLines pre st)
  /\ codeBlockContent (scanLines (pre ++ opening :: body) st)
     = codeBlockContent (scanLines pre st) ++ body.
Proof.
  intros Hp Ho Hb. rewrite scanLines_app. cbn [scanLines fold_left].
  fold (scanLines body (scanLine (scanLines pre st) opening)).
  rewrite (scanLine_open _ _ Hp Ho), scanLines_inside by (reflexivity || assumption).
  split; reflexivity.
Qed.

(** ** Lines of a document *)

Lemma split_cons (s : str) : exists l ls, split LF s = l :: ls.
Proof.
  induction s as [|c s (l & ls & E)]; simpl; [now eexists; eexists|].
  destruct (c =? LF)%N; [now eexists; eexists|].
  rewrite E. now eexists; eexists.
Qed.

Lemma split_noLF (s : str) : Forall noLF (split LF s).
Proof.
  induction s as [|c s IH]; simpl.
  - constructor; [intros []|constructor].
  - destruct (c =? LF)%N eqn:E.
    + constructor; [intros []|exact IH].
    + destruct (split LF s) as [|l ls]; [repeat constructor; intros [->|[]];
        now rewrite N.eqb_refl in E|].
      inversion IH as [|? ? Hl Hls]; subst. constructor; [|exact Hls].
      intros [->|Hin]; [now rewrite N.eqb_refl in E | now apply Hl].
Qed.

Lemma split_line_LF (l s : str) :
  noLF l -> split LF (l ++ LF :: s) = l :: split LF s.
Proof.
  intros H. induction l as [|c l IH]; simpl.
  - reflexivity.
  - destruct (c =? LF)%N eqn:E.
    + apply N.eqb_eq in E. subst c. exfalso. apply H. now left.
    + rewrite IH; [reflexivity|]. intros Hin. apply H. now right.
Qed.

Lemma split_line (l : str) : noLF l -> split LF l = [l].
Proof.
  intros H. induction l as [|c l IH]; simpl; [reflexivity|].
  destruct (c =? LF)%N eqn:E.
  - apply N.eqb_eq in E. subst c. exfalso. apply H. now left.
  - rewrite IH; [reflexivity|]. intros Hin. apply H. now right.
Qed.

(** Splitting a document written line by line gives its lines back. *)
Lemma split_doc (lines : list str) :
  lines <> [] -> Forall noLF lines -> split LF (doc lines) = lines.
Proof.
  unfold doc. induction lines as [|l ls IH]; intros Hne H; [congruence|].
  inversion H as [|? ? Hl Hls]; subst.
  destruct ls as [|l2 ls].
  - simpl. now apply split_line.
  - change (join [LF] (l :: l2 :: ls)) with (l ++ LF :: join [LF] (l2 :: ls)).
    rewrite split_line_LF by assumption. f_equal. apply IH; [discriminate|assumption].
Qed.

Lemma markdownToBlocks_doc (lines : list str) :
  Forall noLF lines ->
  markdownToBlocks (doc lines) = blocks (scanLines lines initialScan).
Proof.
  intros H. destruct lines as [|l ls]; [reflexivity|].
  unfold markdownToBlocks. now rewrite split_doc.
Qed.

(** C4.  A document whose scan ends inside a code block has a last opening
    fence that nothing closes; the lines after it are accumulated but no
    block is pushed for them, and [markdownToBlocks] returns exactly the
    blocks of the lines before that fence. *)
Theorem unterminated_fence_is_dropped (markdown : str) :
  inCodeBlock (scanLines (split LF markdown) initialScan) = true ->
  exists (pre : list str) (opening : str) (body : list str),
    split LF markdown = pre ++ opening :: body
    /\ isFence opening = true
    /\ noFence body = true
    /\ inCodeBlock (scanLines pre initialScan) = false
    /\ codeBlockContent (scanLines (split LF markdown) initialScan) = body
    /\ markdownToBlocks markdown = blocks (scanLines pre initialScan)
    /\ markdownToBlocks markdown = markdownToBlocks (doc pre).
Proof.
  intros H.
  destruct (scanLines_ends_inside _ _ H)
    as [[Hin _] | (pre & o & body & E & Ho & Hb & Hp)]; [discriminate|].
  exists pre, o, body.
  destruct (scanLines_unterminated pre body o initialScan Hp Ho Hb) as [B C].
  assert (N : Forall noLF pre).
  { pose proof (split_noLF markdown) as F. rewrite E in F.
    now apply Forall_app in F as [F _]. }
  unfold markdownToBlocks. rewrite E, B, C.
  destruct (scanLines_atRest pre initialScan initialScan_atRest Hp) as [_ ->].
  repeat split; try assumption.
  fold (markdownToBlocks (doc pre)). now rewrite markdownToBlocks_doc.
Qed.

Lemma scanLine_prepend (bs : list Block) (st : ScanState) (line : str) :
  scanLine (prependBlocks bs st) line = prependBlocks bs (scanLine st line).
Proof.
  destruct st as [b i l c].
  unfold scanLine, prependBlocks, codeBlock.
  cbn [blocks inCodeBlock codeBlockLanguage codeBlockContent].
  destruct (startsWith (trim line) FENCE), i;
    cbn [blocks inCodeBlock codeBlockLanguage codeBlockContent];
    try reflexivity.
  - now rewrite app_assoc.
  - destruct (falsy (trim line));
      cbn [blocks inCodeBlock codeBlockLanguage codeBlockContent];
      [reflexivity|]. now rewrite app_assoc.
Qed.

Lemma scanLines_prepend (bs : list Block) (lines : list str) (st : ScanState) :
  scanLines lines (prependBlocks bs st) = prependBlocks bs (scanLines lines st).
Proof.
  revert st; induction lines as [|l ls IH]; intros st; simpl; [reflexivity|].
  now rewrite scanLine_prepend, IH.
Qed.

Lemma closing_language (opening : str) :
  or_else
    (toLowerCase (if falsy (fenceTag opening) then PLAIN_TEXT
                  else fenceTag opening))
    PLAIN_TEXT
  = fenceLanguage opening.
Proof.
  unfold fenceLanguage. destruct (falsy (fenceTag opening)) eqn:F.
  - rewrite (toLowerCase_ascii PLAIN_TEXT eq_refl). reflexivity.
  - unfold or_else.
    destruct (toLowerCase (fenceTag opening)) eqn:L; [|reflexivity].
    apply toLowerCase_nonempty in L. rewrite L in F. discriminate.
Qed.

(** A fenced region, met outside a code block, pushes one [code] block. *)
Lemma scanLines_fenced (body : list str) (opening closing : str)
    (st : ScanState) :
  inCodeBlock st = false -> codeBlockContent st = [] ->
  isFence opening = true -> noFence body = true -> isFence closing = true ->
  scanLines (opening :: body ++ [closing]) st
  = prependBlocks
      (blocks st
       ++ [mkBlock code [mkRichText Plain (join [LF] body)]
             (Some (fenceLanguage opening))])
      initialScan.
Proof.
  intros Hin Hc Ho Hb Hcl.
  change (opening :: body ++ [closing]) with ((opening :: body) ++ [closing]).
  rewrite scanLines_app. cbn [scanLines fold_left].
  fold (scanLines body (scanLine st opening)).
  rewrite (scanLine_open st opening Hin Ho).
  rewrite scanLines_inside by (reflexivity || assumption).
  rewrite scanLine_close by (reflexivity || assumption).
  unfold prependBlocks, codeBlock, initialScan.
  cbn [blocks inCodeBlock codeBlockLanguage codeBlockContent].
  rewrite Hc, app_nil_r. cbn [app].
  fold (fenceTag opening). now rewrite closing_language.
Qed.

(** C3 (amended).  A fenced region opened outside a code block pushes one
    [code] block whose content is its lines joined by line breaks and
    whose language is the lower-cased tag of the opening fence line, or
    [plain text] when the tag is empty. *)
Theorem code_block_language_is_lowercased
    (markdown : str) (pre body rest : list str) (opening closing : str) :
  split LF markdown = pre ++ opening :: body ++ closing :: rest ->
  inCodeBlock (scanLines pre initialScan) = false ->
  isFence opening = true -> noFence body = true -> isFence closing = true ->
  markdownToBlocks markdown
  = blocks (scanLines pre initialScan)
    ++ mkBlock code [mkRichText Plain (join [LF] body)]
         (Some (fenceLanguage opening))
    :: blocks (scanLines rest initialScan).
Proof.
  intros E Hp Ho Hb Hc. unfold markdownToBlocks. rewrite E.
  replace (pre ++ opening :: body ++ closing :: rest)
    with (pre ++ (opening :: body ++ [closing]) ++ rest)
    by (simpl; now rewrite <- app_assoc).
  rewrite !scanLines_app.
  destruct (scanLines_atRest pre initialScan initialScan_atRest Hp) as [_ C].
  rewrite (scanLines_fenced body opening closing _ Hp C Ho Hb Hc).
  rewrite scanLines_prepend. simpl. now rewrite <- app_assoc.
Qed.

End ClassifierFacts.

(** C3 (counterexample).  The fence line [```Python] yields the language
    [python], which is not the text [Python] that follows the backticks. *)
Lemma code_block_language_not_verbatim :
  List.map language
    (@markdownToBlocks basicLatin (doc [js "```Python"; js "x"; js "```"]))
  = [Some (js "python")]
  /\ fenceTag (js "```Python") = js "Python"
  /\ js "python" <> js "Python".
Proof. repeat split; try (vm_compute; reflexivity). discriminate. Qed.

(** ** [createPage] *)

Section PageFacts.

Context {RT : Runtime}.

(** A document whose first line is a level-one heading starts with the
    [heading_1] block of that line. *)
Lemma markdownToBlocks_leading_heading (markdown : str) :
  startsWith (trim (hd [] (split LF markdown))) H1 = true ->
  markdownToBlocks markdown
  = mkBlock heading_1
      [mkRichText Plain (substring 2 (trim (hd [] (split LF markdown))))] None
    :: blocks (scanLines (tl (split LF markdown)) initialScan).
Proof.
  intros H. unfold markdownToBlocks.
  destruct (split_cons markdown) as (l & ls & E). rewrite E in *.
  cbn [hd tl] in *. cbn [scanLines fold_left].
  fold (scanLines ls (scanLine initialScan l)).
  destruct (scanLine_headings initialScan l eq_refl) as [Hh _]. rewrite (Hh H).
  change (pushBlock initialScan ?b) with (prependBlocks [b] initialScan).
  now rewrite scanLines_prepend.
Qed.

(** C10.  When a parent is known, [createPage] sends one request.  If the
    trimmed first line of the document starts with [# ], the title of the
    request is the rest of that line and the body is the blocks of the
    document without their first block, which is the [heading_1] of that
    line; otherwise the title is the one the caller gave and the body is
    all the blocks, as for a heading that follows a blank first line. *)
Theorem title_promotion (config : NotionConfig) (title : str)
    (parentConfig : option ParentConfig) :
  falsy (resolveParentId config parentConfig) = false ->
  (forall markdown : str,
      exists request : PageRequest,
        createPage config title markdown parentConfig = Create request
        /\ (startsWith (trim (hd [] (split LF markdown))) H1 = true ->
            pageTitle request
            = substring 2 (trim (hd [] (split LF markdown)))
            /\ markdownToBlocks markdown
               = mkBlock heading_1
                   [mkRichText Plain
                      (substring 2 (trim (hd [] (split LF markdown))))] None
                 :: children request)
        /\ (startsWith (trim (hd [] (split LF markdown))) H1 = false ->
            pageTitle request = title
            /\ children request = markdownToBlocks markdown))
  /\ exists request : PageRequest,
       createPage config title (doc [js ""; js "# Guide"]) parentConfig
       = Create request
       /\ pageTitle request = title
       /\ children request
          = [mkBlock heading_1 [mkRichText Plain (js "Guide")] None].
Proof.
  intros Hid. split.
  - intros markdown. unfold createPage. rewrite Hid.
    destruct (startsWith (trim (hd [] (split LF markdown))) H1) eqn:E.
    + eexists. split; [reflexivity|]. split; [|discriminate].
      intros _. cbn [pageTitle children]. split; [reflexivity|].
      rewrite (markdownToBlocks_leading_heading markdown E). reflexivity.
    + eexists. split; [reflexivity|]. split; [discriminate|].
      intros _. split; reflexivity.
  - unfold createPage. rewrite Hid.
    eexists. split; [reflexivity|]. split; reflexivity.
Qed.

End PageFacts.

(** ** The theorems at concrete documents *)

(** Each lemma below applies one of the theorems above, in the Basic Latin
    runtime, to a document on which its hypotheses hold. *)

Lemma code_block_language_is_lowercased_witness :
  split LF (doc [js "```python"; PRINT_HI; js "```"])
  = [] ++ js "```python" :: [PRINT_HI] ++ js "```" :: []
  /\ inCodeBlock (@scanLines basicLatin [] initialScan) = false
  /\ isFence (js "```python") = true
  /\ noFence [PRINT_HI] = true
  /\ isFence (js "```") = true
  /\ @markdownToBlocks basicLatin (doc [js "```python"; PRINT_HI; js "```"])
     = [mkBlock code [mkRichText Plain PRINT_HI] (Some (js "python"))].
Proof.
  do 5 (split; [reflexivity|]).
  exact (@code_block_language_is_lowercased basicLatin
           (doc [js "```python"; PRINT_HI; js "```"])
           [] [PRINT_HI] [] (js "```python") (js "```")
           eq_refl eq_refl eq_refl eq_refl eq_refl).
Defined.

Lemma unterminated_fence_is_dropped_witness :
  inCodeBlock
    (@scanLines basicLatin
       (split LF (doc [js "intro"; js "```js"; js "let x"])) initialScan)
  = true
  /\ exists (pre : list str) (opening : str) (body : list str),
       split LF (doc [js "intro"; js "```js"; js "let x"])
       = pre ++ opening :: body
       /\ isFence opening = true
       /\ noFence body = true
       /\ inCodeBlock (@scanLines basicLatin pre initialScan) = false
       /\ codeBlockContent
            (@scanLines basicLatin
               (split LF (doc [js "intro"; js "```js"; js "let x"]))
               initialScan)
          = body
       /\ @markdownToBlocks basicLatin
            (doc [js "intro"; js "```js"; js "let x"])
          = blocks (@scanLines basicLatin pre initialScan)
       /\ @markdownToBlocks basicLatin
            (doc [js "intro"; js "```js"; js "let x"])
          = @markdownToBlocks basicLatin (doc pre).
Proof.
  split; [reflexivity|].
  exact (@unterminated_fence_is_dropped basicLatin
           (doc [js "intro"; js "```js"; js "let x"]) eq_refl).
Defined.

Lemma block_count_without_fences_witness :
  noFence (split LF (doc [js "# T"; js ""; js "text"; js "  "; js "- item"]))
  = true
  /\ length (@markdownToBlocks basicLatin
               (doc [js "# T"; js ""; js "text"; js "  "; js "- item"]))
     = 3.
Proof.
  split; [reflexivity|].
  exact (proj1 (@block_count_without_fences basicLatin)
           (doc [js "# T"; js ""; js "text"; js "  "; js "- item"]) eq_refl).
Defined.



Lemma title_promotion_witness :
  falsy (resolveParentId sampleConfig None) = false
  /\ startsWith (trim (hd [] (split LF (doc [js "# Guide"; js "text"])))) H1
     = true
  /\ exists request : PageRequest,
       @createPage basicLatin sampleConfig (js "Video")
         (doc [js "# Guide"; js "text"]) None
       = Create request
       /\ pageTitle request = js "Guide"
       /\ @markdownToBlocks basicLatin (doc [js "# Guide"; js "text"])
          = mkBlock heading_1 [mkRichText Plain (js "Guide")] None
            :: children request.
Proof.
  split; [reflexivity|]. split; [reflexivity|].
  destruct (proj1 (@title_promotion basicLatin sampleConfig (js "Video") None
                     eq_refl) (doc [js "# Guide"; js "text"]))
    as (request & E & Hyes & _).
  exists request. split; [exact E|]. exact (Hyes eq_refl).
Defined.


(** * Further properties *)

(** ** Spans of [parseRichText] *)

Lemma parseRichText_runs_content (text : str) :
  Forall (fun r => content r <> []) (parseRichText text).
Proof.
  rewrite parseRichText_flat_map.
  induction (split_inline text) as [|p ps IH]; simpl; [constructor|].
  apply Forall_app. split; [apply partRuns_content | exact IH].
Qed.

Lemma noDelimiters_head (c : char) (s : str) :
  noDelimiters (c :: s) = true ->
  c <> STAR /\ c <> BACKTICK /\ noDelimiters s = true.
Proof.
  simpl. intros H. apply andb_true_iff in H as [Hc Hs].
  apply andb_true_iff in Hc as [A B].
  apply negb_true_iff, N.eqb_neq in A, B. auto.
Qed.

Lemma partRuns_plain (p : str) :
  noDelimiters p = true -> partRuns p = plainRuns p.
Proof.
  destruct p as [|c p]; [reflexivity|]. intros H.
  apply noDelimiters_head in H as (A & B & _).
  unfold partRuns, plainRuns, pushPart, STARS2, STAR1, TICK1. cbn [falsy].
  now rewrite !startsWith_head_neq.
Qed.

Lemma split_scan_plain_prefix (p s acc : str) :
  noDelimiters p = true ->
  split_scan (p ++ s) 0 acc = split_scan s 0 (acc ++ p).
Proof.
  revert acc; induction p as [|c p IH]; intros acc H.
  - simpl. now rewrite app_nil_r.
  - apply noDelimiters_head in H as (A & B & Hp).
    cbn [app]. rewrite split_scan_nomatch by now apply inline_exec_head.
    rewrite IH by assumption. now rewrite <- app_assoc.
Qed.

(** A match at the start of the rest, between two delimiter-free texts. *)
Lemma parse_span (p m q : str) :
  noDelimiters p = true -> noDelimiters q = true ->
  inline_exec (m ++ q) = Some (length m) ->
  parseRichText (p ++ m ++ q) = plainRuns p ++ partRuns m ++ plainRuns q.
Proof.
  intros Hp Hq E. rewrite parseRichText_flat_map. unfold split_inline.
  rewrite split_scan_plain_prefix by assumption.
  rewrite (split_scan_match _ _ _ E).
  rewrite firstn_app, firstn_all, Nat.sub_diag, app_nil_r.
  rewrite skipn_app, skipn_all, Nat.sub_diag. cbn [skipn app].
  rewrite split_scan_plain by assumption.
  cbn [flat_map app]. rewrite app_nil_r.
  now rewrite (partRuns_plain p Hp), (partRuns_plain q Hq).
Qed.

Lemma lazy_dot_until_bold_tail (x q : str) :
  boldPayload x = true ->
  lazy_dot_until STARS2 (x ++ STARS2 ++ q) = Some (length x).
Proof.
  induction x as [|c x IH]; intros H; [reflexivity|].
  cbn [boldPayload] in H.
  apply andb_true_iff in H as [H Hx].
  apply andb_true_iff in H as [Hlt Hstar].
  apply negb_true_iff in Hlt.
  cbn [app lazy_dot_until]. rewrite Hlt, (IH Hx).
  replace (startsWith (c :: x ++ STARS2 ++ q) STARS2) with false;
    [reflexivity|].
  unfold STARS2 at 2. cbn [startsWith].
  rewrite (N.eqb_sym STAR c).
  destruct (c =? STAR)%N; [|reflexivity].
  destruct x as [|d x]; [discriminate|].
  cbn [app startsWith]. rewrite (N.eqb_sym STAR d).
  apply negb_true_iff in Hstar. now rewrite Hstar.
Qed.

Lemma lazy_dot_until_char (d : char) (x q : str) :
  forallb (fun c => negb (c =? d)%N) x = true ->
  noLineTerminator x = true ->
  lazy_dot_until [d] (x ++ d :: q) = Some (length x).
Proof.
  induction x as [|c x IH]; intros Hd Hl.
  - cbn [app lazy_dot_until startsWith]. now rewrite N.eqb_refl.
  - simpl in Hd, Hl.
    apply andb_true_iff in Hd as [Hc Hd]. apply andb_true_iff in Hl as [Hn Hl].
    apply negb_true_iff in Hc, Hn.
    cbn [app lazy_dot_until startsWith].
    rewrite (N.eqb_sym d c), Hc, Hn, (IH Hd Hl). reflexivity.
Qed.

Lemma partRuns_bold (x : str) :
  x <> [] -> partRuns (STARS2 ++ x ++ STARS2) = [mkRichText Bold x].
Proof.
  intros Hne. unfold partRuns, pushPart.
  assert (L : 4 < length (STARS2 ++ x ++ STARS2)).
  { rewrite !length_app. destruct x; [congruence|]. simpl. lia. }
  replace (falsy (STARS2 ++ x ++ STARS2)) with false
    by (symmetry; apply falsy_false_length; lia).
  rewrite startsWith_app.
  replace (endsWith (STARS2 ++ x ++ STARS2) STARS2) with true
    by (now rewrite app_assoc, endsWith_app).
  apply Nat.ltb_lt in L. rewrite L. cbn [andb app].
  pose proof (slice_delimited STARS2 x STARS2) as S.
  change (length STARS2) with 2 in S. now rewrite S.
Qed.

Lemma partRuns_italic (c : char) (x : str) :
  c <> STAR ->
  partRuns (STAR1 ++ (c :: x) ++ STAR1) = [mkRichText Italic (c :: x)].
Proof.
  intros Hc. unfold partRuns, pushPart.
  replace (falsy (STAR1 ++ (c :: x) ++ STAR1)) with false by reflexivity.
  replace (startsWith (STAR1 ++ (c :: x) ++ STAR1) STARS2) with false.
  2:{ unfold STAR1, STARS2. cbn [app startsWith].
      apply N.eqb_neq in Hc. rewrite (N.eqb_sym STAR c), Hc.
      now rewrite N.eqb_refl. }
  rewrite startsWith_app.
  replace (endsWith (STAR1 ++ (c :: x) ++ STAR1) STAR1) with true
    by (now rewrite app_assoc, endsWith_app).
  replace (2 <? length (STAR1 ++ (c :: x) ++ STAR1)) with true.
  2:{ symmetry. apply Nat.ltb_lt. rewrite !length_app. simpl. lia. }
  cbn [andb].
  pose proof (slice_delimited STAR1 (c :: x) STAR1) as S.
  change (length STAR1) with 1 in S. now rewrite S.
Qed.

Lemma partRuns_code (x : str) :
  x <> [] -> partRuns (TICK1 ++ x ++ TICK1) = [mkRichText Code x].
Proof.
  intros Hne. unfold partRuns, pushPart.
  replace (falsy (TICK1 ++ x ++ TICK1)) with false by reflexivity.
  replace (startsWith (TICK1 ++ x ++ TICK1) STARS2) with false by reflexivity.
  replace (startsWith (TICK1 ++ x ++ TICK1) STAR1) with false by reflexivity.
  rewrite startsWith_app.
  replace (endsWith (TICK1 ++ x ++ TICK1) TICK1) with true
    by (now rewrite app_assoc, endsWith_app).
  replace (2 <? length (TICK1 ++ x ++ TICK1)) with true.
  2:{ symmetry. apply Nat.ltb_lt. rewrite !length_app.
      destruct x; [congruence|]. simpl. lia. }
  cbn [andb app].
  pose proof (slice_delimited TICK1 x TICK1) as S.
  change (length TICK1) with 1 in S. now rewrite S.
Qed.

Lemma inline_exec_bold (x q : str) :
  boldPayload x = true ->
  inline_exec ((STARS2 ++ x ++ STARS2) ++ q)
  = Some (length (STARS2 ++ x ++ STARS2)).
Proof.
  intros Hx. rewrite <- !app_assoc.
  unfold inline_exec, delimited. rewrite startsWith_app.
  rewrite skipn_app, skipn_all, Nat.sub_diag. cbn [skipn app].
  pose proof (lazy_dot_until_bold_tail x q Hx) as L. cbn [app] in L.
  rewrite L. cbn [option_map].
  rewrite !length_app. f_equal; simpl; lia.
Qed.

Lemma inline_exec_italic (c : char) (x q : str) :
  noStar (c :: x) = true -> noLineTerminator (c :: x) = true ->
  inline_exec ((STAR1 ++ (c :: x) ++ STAR1) ++ q)
  = Some (length (STAR1 ++ (c :: x) ++ STAR1)).
Proof.
  intros Hs Hl. rewrite <- !app_assoc.
  assert (Hc : c <> STAR).
  { simpl in Hs. apply andb_true_iff in Hs as [Hc _].
    now apply negb_true_iff, N.eqb_neq in Hc. }
  unfold inline_exec.
  replace (delimited STARS2 STARS2 (STAR1 ++ (c :: x) ++ STAR1 ++ q))
    with (@None nat).
  2:{ unfold delimited, STAR1, STARS2. cbn [app startsWith].
      apply N.eqb_neq in Hc. rewrite (N.eqb_sym STAR c), Hc.
      now rewrite N.eqb_refl. }
  unfold delimited. rewrite startsWith_app.
  rewrite skipn_app, skipn_all, Nat.sub_diag. cbn [skipn].
  pose proof (lazy_dot_until_char STAR (c :: x) q Hs Hl) as L.
  match goal with
  | |- context [lazy_dot_until ?a ?b] =>
      change (lazy_dot_until a b)
        with (lazy_dot_until [STAR] ((c :: x) ++ STAR :: q))
  end.
  rewrite L. cbn [option_map].
  rewrite !length_app. f_equal; simpl; lia.
Qed.

Lemma inline_exec_code (x q : str) :
  noBacktick x = true -> noLineTerminator x = true ->
  inline_exec ((TICK1 ++ x ++ TICK1) ++ q)
  = Some (length (TICK1 ++ x ++ TICK1)).
Proof.
  intros Hs Hl. rewrite <- !app_assoc.
  unfold inline_exec.
  replace (delimited STARS2 STARS2 (TICK1 ++ x ++ TICK1 ++ q))
    with (@None nat) by reflexivity.
  replace (delimited STAR1 STAR1 (TICK1 ++ x ++ TICK1 ++ q))
    with (@None nat) by reflexivity.
  unfold delimited. rewrite startsWith_app.
  rewrite skipn_app, skipn_all, Nat.sub_diag. cbn [skipn].
  pose proof (lazy_dot_until_char BACKTICK x q Hs Hl) as L.
  match goal with
  | |- context [lazy_dot_until ?a ?b] =>
      change (lazy_dot_until a b)
        with (lazy_dot_until [BACKTICK] (x ++ BACKTICK :: q))
  end.
  rewrite L. cbn [option_map].
  rewrite !length_app. f_equal; simpl; lia.
Qed.





(** X1.  Between two delimiter-free texts, a span with a non-empty payload
    that holds no line terminator is parsed into the Plain run before it
    (none if empty), one run of the style holding the payload as written,
    and the Plain run after it, provided the payload cannot close the
    span early: for bold its asterisks are all single and not last, for
    italic it holds no asterisk, for code it holds no backtick.  So the
    payload of a code span may hold asterisks and that of an italic span
    backticks: they stay literal. *)
Theorem span_between_plain_texts (p x q : str) :
  noDelimiters p = true -> noDelimiters q = true -> x <> [] ->
  (boldPayload x = true ->
   parseRichText (p ++ (STARS2 ++ x ++ STARS2) ++ q)
   = plainRuns p ++ mkRichText Bold x :: plainRuns q)
  /\ (noStar x = true -> noLineTerminator x = true ->
      parseRichText (p ++ (STAR1 ++ x ++ STAR1) ++ q)
      = plainRuns p ++ mkRichText Italic x :: plainRuns q)
  /\ (noBacktick x = true -> noLineTerminator x = true ->
      parseRichText (p ++ (TICK1 ++ x ++ TICK1) ++ q)
      = plainRuns p ++ mkRichText Code x :: plainRuns q).
Proof.
  intros Hp Hq Hne. repeat split.
  - intros Hx.
    rewrite (parse_span p _ q Hp Hq (inline_exec_bold x q Hx)).
    now rewrite partRuns_bold.
  - intros Hs Hl. destruct x as [|c x]; [congruence|].
    rewrite (parse_span p _ q Hp Hq (inline_exec_italic c x q Hs Hl)).
    rewrite partRuns_italic; [reflexivity|].
    simpl in Hs. apply andb_true_iff in Hs as [Hc _].
    now apply negb_true_iff, N.eqb_neq in Hc.
  - intros Hs Hl.
    rewrite (parse_span p _ q Hp Hq (inline_exec_code x q Hs Hl)).
    now rewrite partRuns_code.
Qed.

Lemma span_between_plain_texts_witness :
  noDelimiters (js "Run ") = true /\ noDelimiters (js " twice") = true
  /\ js "a*b" <> [] /\ js "a`b" <> []
  /\ boldPayload (js "a*b") = true
  /\ noStar (js "a`b") = true /\ noLineTerminator (js "a`b") = true
  /\ noBacktick (js "a*b") = true /\ noLineTerminator (js "a*b") = true
  /\ parseRichText (js "Run **a*b** twice")
     = [mkRichText Plain (js "Run "); mkRichText Bold (js "a*b");
        mkRichText Plain (js " twice")]
  /\ parseRichText (js "Run *a`b* twice")
     = [mkRichText Plain (js "Run "); mkRichText Italic (js "a`b");
        mkRichText Plain (js " twice")]
  /\ parseRichText (js "Run `a*b` twice")
     = [mkRichText Plain (js "Run "); mkRichText Code (js "a*b");
        mkRichText Plain (js " twice")].
Proof.
  assert (N1 : js "a*b" <> []) by discriminate.
  assert (N2 : js "a`b" <> []) by discriminate.
  do 2 (split; [reflexivity|]). do 2 (split; [assumption|]).
  do 5 (split; [reflexivity|]).
  split; [|split].
  - exact (proj1 (span_between_plain_texts (js "Run ") (js "a*b")
                    (js " twice") eq_refl eq_refl N1) eq_refl).
  - exact (proj1 (proj2 (span_between_plain_texts (js "Run ") (js "a`b")
                           (js " twice") eq_refl eq_refl N2))
             eq_refl eq_refl).
  - exact (proj2 (proj2 (span_between_plain_texts (js "Run ") (js "a*b")
                           (js " twice") eq_refl eq_refl N1))
             eq_refl eq_refl).
Defined.

(** ** The text that [parseRichText] keeps *)

Lemma keepsText_refl (s : str) : keepsText s s.
Proof. induction s; constructor; assumption. Qed.

Lemma keepsText_app (a a' b b' : str) :
  keepsText a a' -> keepsText b b' -> keepsText (a ++ b) (a' ++ b').
Proof.
  intros Ha Hb. induction Ha; simpl; try assumption.
  - now constructor.
  - now apply keeps_drop.
Qed.

Lemma keepsText_delimiters (o : str) :
  Forall (fun c => c = STAR \/ c = BACKTICK) o -> keepsText o [].
Proof.
  induction 1 as [|c o Hc _ IH]; [constructor|]. now apply keeps_drop.
Qed.

(** A part that starts and ends with [o] and is long enough for both is
    [o], the slice between, and [o]. *)
Lemma delimited_part (o part : str) :
  startsWith part o = true -> endsWith part o = true ->
  2 * length o <= length part ->
  part = o ++ slice (length o) (length o) part ++ o.
Proof.
  intros Hs He Hl.
  apply startsWith_inv in Hs as [r ->].
  unfold endsWith in He. apply startsWith_inv in He as [r' Er'].
  apply (f_equal (@rev char)) in Er'.
  rewrite rev_involutive, rev_app_distr, rev_involutive in Er'.
  rewrite length_app in Hl.
  assert (Lx : length o + length r = length (rev r') + length o)
    by (rewrite <- !length_app; now rewrite Er').
  assert (S : skipn (length r - length o) r = o).
  { assert (S1 : skipn (length (rev r')) (o ++ r) = o)
      by (rewrite Er', skipn_app, skipn_all, Nat.sub_diag; reflexivity).
    rewrite skipn_app in S1. rewrite skipn_all2 in S1 by lia.
    cbn [app] in S1.
    replace (length r - length o) with (length (rev r') - length o) by lia.
    exact S1. }
  unfold slice. rewrite skipn_app, skipn_all, Nat.sub_diag. cbn [skipn app].
  rewrite length_app. f_equal.
  replace (length o + length r - length o - length o)
    with (length r - length o) by lia.
  transitivity (firstn (length r - length o) r
                ++ skipn (length r - length o) r).
  - symmetry. apply firstn_skipn.
  - now rewrite S.
Qed.

Lemma keepsText_part (part : str) :
  keepsText part (runsText (partRuns part)).
Proof.
  assert (D2 : keepsText STARS2 []) by (apply keepsText_delimiters;
    repeat constructor; now left).
  assert (D1 : keepsText STAR1 []) by (apply keepsText_delimiters;
    repeat constructor; now left).
  assert (T1 : keepsText TICK1 []) by (apply keepsText_delimiters;
    repeat constructor; now right).
  assert (K : forall o, keepsText o [] ->
              startsWith part o = true -> endsWith part o = true ->
              2 * length o <= length part ->
              keepsText part (slice (length o) (length o) part ++ [])).
  { intros o Ho Hs He Hl.
    rewrite (delimited_part o part Hs He Hl) at 1.
    change (slice (length o) (length o) part ++ [])
      with ([] ++ slice (length o) (length o) part ++ []).
    apply keepsText_app; [assumption|].
    apply keepsText_app; [apply keepsText_refl | assumption]. }
  unfold partRuns, pushPart, runsText.
  destruct (falsy part) eqn:F.
  { apply falsy_true in F. subst. constructor. }
  repeat match goal with
         | |- context [if ?b then _ else _] => destruct b eqn:?
         end; cbn [app List.map concat content];
    repeat match goal with
           | H : _ && _ = true |- _ => apply andb_true_iff in H as [? H]
           | H : (_ <? _) = true |- _ => apply Nat.ltb_lt in H
           end.
  - apply (K STARS2); simpl; (assumption || lia).
  - apply (K STAR1); simpl; (assumption || lia).
  - apply (K TICK1); simpl; (assumption || lia).
  - rewrite app_nil_r. apply keepsText_refl.
Qed.

(** X2.  The text of the runs of a line is the line with some asterisks
    and backticks left out: every other code unit is kept, in order, and
    nothing is added. *)
Theorem parseRichText_keeps_text (text : str) :
  keepsText text (runsText (parseRichText text)).
Proof.
  rewrite parseRichText_flat_map.
  rewrite <- (split_inline_concat text) at 1.
  unfold runsText.
  induction (split_inline text) as [|p ps IH]; [constructor|].
  cbn [concat flat_map]. rewrite map_app, concat_app.
  apply keepsText_app; [apply keepsText_part | exact IH].
Qed.

(** ** Trimming *)

Lemma dropWhile_head (p : char -> bool) (s : str) :
  dropWhile p s = [] \/ exists c r, dropWhile p s = c :: r /\ p c = false.
Proof.
  induction s as [|c s IH]; simpl; [now left|].
  destruct (p c) eqn:E; [exact IH|]. right. now exists c, s.
Qed.

Lemma dropWhile_fixed (p : char -> bool) (s : str) :
  s = [] \/ (exists c r, s = c :: r /\ p c = false) -> dropWhile p s = s.
Proof.
  intros [->|(c & r & -> & H)]; simpl; [reflexivity|]. now rewrite H.
Qed.

Lemma dropWhile_idem (p : char -> bool) (s : str) :
  dropWhile p (dropWhile p s) = dropWhile p s.
Proof. apply dropWhile_fixed, dropWhile_head. Qed.

Lemma dropWhile_suffix (p : char -> bool) (s : str) :
  exists a, s = a ++ dropWhile p s /\ forallb p a = true.
Proof.
  induction s as [|c s (a & E & F)]; simpl; [now exists []|].
  destruct (p c) eqn:Pc; [|now exists []].
  exists (c :: a). simpl. rewrite Pc, F. split; [now f_equal|reflexivity].
Qed.

Lemma trimEnd_prefix (s : str) :
  exists w, s = trimEnd s ++ w /\ forallb isSpace w = true.
Proof.
  unfold trimEnd. destruct (dropWhile_suffix isSpace (rev s)) as (a & E & F).
  exists (rev a). split.
  - rewrite <- rev_app_distr, <- E. symmetry. apply rev_involutive.
  - rewrite forallb_forall in *. intros c Hc. apply F. now apply in_rev.
Qed.

Lemma trimEnd_last (s : str) :
  trimEnd s = [] \/ exists r c, trimEnd s = r ++ [c] /\ isSpace c = false.
Proof.
  unfold trimEnd.
  destruct (dropWhile_head isSpace (rev s)) as [->|(c & r & -> & H)];
    [now left|].
  right. exists (rev r), c. now split.
Qed.

Lemma trimEnd_idem (s : str) : trimEnd (trimEnd s) = trimEnd s.
Proof. unfold trimEnd. now rewrite rev_involutive, dropWhile_idem. Qed.

Lemma trim_last (s : str) :
  trim s = [] \/ exists r c, trim s = r ++ [c] /\ isSpace c = false.
Proof. apply trimEnd_last. Qed.

Lemma trim_head (s : str) :
  trim s = [] \/ exists c r, trim s = c :: r /\ isSpace c = false.
Proof.
  unfold trim.
  destruct (trimEnd_prefix (trimStart s)) as (w & E & _).
  destruct (trimEnd (trimStart s)) as [|c r]; [now left|]. right.
  exists c, r. split; [reflexivity|].
  destruct (dropWhile_head isSpace s) as [H|(c' & r' & H & P)];
    unfold trimStart in E; rewrite H in E; [discriminate|].
  now injection E as -> _.
Qed.

Lemma trim_idem (s : str) : trim (trim s) = trim s.
Proof.
  unfold trim at 1. unfold trimStart.
  rewrite (dropWhile_fixed isSpace (trim s) (trim_head s)).
  apply trimEnd_idem.
Qed.

Lemma dropWhile_In (p : char -> bool) (c : char) (s : str) :
  In c (dropWhile p s) -> In c s.
Proof.
  induction s as [|d s IH]; simpl; [auto|].
  destruct (p d); [right; auto | auto].
Qed.

Lemma trim_In (c : char) (s : str) : In c (trim s) -> In c s.
Proof.
  unfold trim, trimEnd, trimStart. intros H.
  apply in_rev, dropWhile_In, in_rev, dropWhile_In in H. exact H.
Qed.

(** Behind a whitespace code unit a trimmed line goes on. *)
Lemma trim_goes_on (line pre rest : str) (w : char) :
  trim line = pre ++ w :: rest -> isSpace w = true -> rest <> [].
Proof.
  intros E Hw ->.
  destruct (trim_last line) as [H|(r & c & H & Hc)]; rewrite H in E.
  - now destruct pre.
  - apply app_inj_tail in E as [_ ->]. congruence.
Qed.

Lemma isBlank_trim (l : str) : isBlank (trim l) = isBlank l.
Proof. unfold isBlank. now rewrite trim_idem. Qed.

Lemma isFence_trim (l : str) : isFence (trim l) = isFence l.
Proof. unfold isFence. now rewrite trim_idem. Qed.

(** ** The numbered-item pattern, both ways *)

Lemma takeWhile_split (p : char -> bool) (s : str) :
  s = takeWhile p s ++ skipn (length (takeWhile p s)) s
  /\ forallb p (takeWhile p s) = true.
Proof.
  induction s as [|c s [E F]]; simpl; [now split|].
  destruct (p c) eqn:Pc; simpl; [|now split].
  rewrite Pc, F. split; [now f_equal|reflexivity].
Qed.

Lemma numbered_exec_inv (s : str) (n : nat) :
  numbered_exec s = Some n ->
  exists ds w rest,
    ds <> [] /\ forallb isDigit ds = true /\ isSpace w = true
    /\ s = ds ++ DOT :: w :: rest /\ n = length ds + 2.
Proof.
  unfold numbered_exec. cbv zeta.
  destruct (takeWhile_split isDigit s) as [E F].
  destruct (takeWhile isDigit s) as [|d ds] eqn:T; [discriminate|].
  destruct (skipn (length (d :: ds)) s) as [|c [|w rest]] eqn:K;
    try discriminate.
  destruct ((c =? DOT)%N && isSpace w) eqn:C; [|discriminate].
  intros [= <-]. apply andb_true_iff in C as [Cd Cw].
  apply N.eqb_eq in Cd. subst c.
  exists (d :: ds), w, rest. repeat split; try assumption; discriminate.
Qed.

Lemma numbered_exec_space (digits rest : str) (w : char) :
  digits <> [] -> forallb isDigit digits = true -> isSpace w = true ->
  numbered_exec (digits ++ DOT :: w :: rest) = Some (length digits + 2).
Proof.
  intros Hne Hds Hw. unfold numbered_exec. cbv zeta.
  rewrite takeWhile_app_stop by (assumption || reflexivity).
  destruct digits as [|d ds]; [congruence|].
  rewrite skipn_app, skipn_all, Nat.sub_diag. cbn [skipn app].
  now rewrite N.eqb_refl, Hw.
Qed.

Lemma lineBlock_numbered (digits rest : str) (w : char) :
  digits <> [] -> forallb isDigit digits = true -> isSpace w = true ->
  lineBlock (digits ++ DOT :: w :: rest)
  = mkBlock numbered_list_item (parseRichText rest) None.
Proof.
  intros Hne Hds Hw.
  pose proof (numbered_exec_space digits rest w Hne Hds Hw) as E.
  destruct digits as [|d ds]; [congruence|].
  assert (Hd : isDigit d = true)
    by (simpl in Hds; now apply andb_true_iff in Hds as [? _]).
  destruct (isDigit_not_marker d Hd) as (N1 & N2 & N3 & N4 & N5).
  unfold lineBlock, H1, H2, H3, BULLET, numbered_test, numbered_strip.
  cbn [app] in *. rewrite !startsWith_head_neq by assumption.
  rewrite E. f_equal.
  change (d :: ds ++ DOT :: w :: rest) with ((d :: ds) ++ DOT :: w :: rest).
  rewrite skipn_app, skipn_all2 by lia.
  replace (length (d :: ds) + 2 - length (d :: ds)) with 2 by lia.
  reflexivity.
Qed.

(** X3.  A trimmed line becomes a [numbered_list_item] exactly when it is
    one or more digits, a period and one whitespace code unit (a space, a
    tab, a no-break space, ...) followed by any text; the runs of the item
    are that text parsed.  No other numbering is recognised. *)
Theorem numbered_item_shape (trimmed : str) :
  (type (lineBlock trimmed) = numbered_list_item
   <-> exists digits w rest,
         digits <> [] /\ forallb isDigit digits = true /\ isSpace w = true
         /\ trimmed = digits ++ DOT :: w :: rest)
  /\ forall digits w rest,
       digits <> [] -> forallb isDigit digits = true -> isSpace w = true ->
       trimmed = digits ++ DOT :: w :: rest ->
       lineBlock trimmed
       = mkBlock numbered_list_item (parseRichText rest) None.
Proof.
  split; [split|].
  - unfold lineBlock.
    repeat match goal with
           | |- context [if startsWith ?a ?b then _ else _] =>
               destruct (startsWith a b); [discriminate|]
           end.
    unfold numbered_test.
    destruct (numbered_exec trimmed) as [n|] eqn:E.
    + intros _. destruct (numbered_exec_inv trimmed n E)
        as (ds & w & rest & A & B & C & D & _).
      now exists ds, w, rest.
    + destruct (startsWith trimmed QUOTE); discriminate.
  - intros (ds & w & rest & A & B & C & ->).
    now rewrite lineBlock_numbered.
  - intros ds w rest A B C ->. now apply lineBlock_numbered.
Qed.

Lemma numbered_item_shape_witness :
  js "10" <> [] /\ forallb isDigit (js "10") = true /\ isSpace TAB = true
  /\ lineBlock (js "10" ++ DOT :: TAB :: js "Save")
     = mkBlock numbered_list_item [mkRichText Plain (js "Save")] None
  /\ type (lineBlock (js "1.Save")) = paragraph.
Proof.
  assert (N : js "10" <> []) by discriminate.
  split; [assumption|]. do 2 (split; [reflexivity|]).
  split; [|reflexivity].
  exact (proj2 (numbered_item_shape (js "10" ++ DOT :: TAB :: js "Save"))
           (js "10") TAB (js "Save") N eq_refl eq_refl eq_refl).
Defined.

(** ** Documents as sequences of lines *)

Section DocumentFacts.

Context {RT : Runtime}.

Lemma scanLines_plain_lines (lines : list str) (st : ScanState) :
  noFence lines = true -> inCodeBlock st = false ->
  scanLines lines st
  = prependBlocks (blocks st)
      {| blocks := List.map (fun l => lineBlock (trim l))
                     (filter (fun l => negb (isBlank l)) lines);
         inCodeBlock := false;
         codeBlockLanguage := codeBlockLanguage st;
         codeBlockContent := codeBlockContent st |}.
Proof.
  revert st; induction lines as [|l ls IH]; intros st Hf Hin.
  - destruct st as [b i la c]. simpl in *. subst i.
    unfold prependBlocks. simpl. now rewrite app_nil_r.
  - simpl in Hf. apply andb_true_iff in Hf as [Hl Hls].
    apply negb_true_iff in Hl. cbn [scanLines fold_left].
    fold (scanLines ls (scanLine st l)).
    rewrite (scanLine_outside st l Hin Hl). cbn [filter].
    destruct (isBlank l); cbn [negb].
    + now apply IH.
    + rewrite IH by (assumption || reflexivity).
      unfold prependBlocks, pushBlock. cbn. now rewrite <- app_assoc.
Qed.

(** X4.  A document without fence lines yields, in the order of its lines,
    the block of each line that is not blank, computed from the trimmed
    line alone: no line changes the block of another one. *)
Theorem blocks_follow_the_lines (markdown : str) :
  noFence (split LF markdown) = true ->
  markdownToBlocks markdown
  = List.map (fun l => lineBlock (trim l))
      (filter (fun l => negb (isBlank l)) (split LF markdown)).
Proof.
  intros H. unfold markdownToBlocks.
  now rewrite (scanLines_plain_lines _ initialScan H eq_refl).
Qed.

Lemma trimmed_lines_plain (lines : list str) :
  List.map (fun l => lineBlock (trim l))
    (filter (fun l => negb (isBlank l)) (List.map trim lines))
  = List.map (fun l => lineBlock (trim l))
      (filter (fun l => negb (isBlank l)) lines).
Proof.
  induction lines as [|l ls IH]; [reflexivity|].
  cbn [List.map filter]. rewrite isBlank_trim.
  destruct (isBlank l); cbn [negb List.map]; [exact IH|].
  now rewrite trim_idem, IH.
Qed.

Lemma noFence_trim (lines : list str) :
  noFence (List.map trim lines) = noFence lines.
Proof.
  induction lines as [|l ls IH]; [reflexivity|].
  simpl. fold (noFence (List.map trim ls)). fold (noFence ls).
  now rewrite isFence_trim, IH.
Qed.

Lemma noLF_trim (lines : list str) :
  Forall noLF lines -> Forall noLF (List.map trim lines).
Proof.
  induction 1 as [|l ls Hl _ IH]; constructor; [|exact IH].
  intros H. apply Hl. now apply trim_In.
Qed.

(** X5.  In a document without fence lines the white space around each
    line does not matter: indenting or padding lines changes no block. *)
Theorem indentation_is_ignored (lines : list str) :
  Forall noLF lines -> noFence lines = true ->
  markdownToBlocks (doc (List.map trim lines)) = markdownToBlocks (doc lines).
Proof.
  intros HL HF.
  rewrite !markdownToBlocks_doc by (assumption || now apply noLF_trim).
  rewrite !scanLines_plain_lines
    by (reflexivity || assumption || now rewrite noFence_trim).
  now rewrite trimmed_lines_plain.
Qed.

(** *** Fences come in pairs *)

Lemma lineBlock_not_code (trimmed : str) : isCode (lineBlock trimmed) = false.
Proof.
  unfold lineBlock.
  repeat match goal with
         | |- context [if ?b then _ else _] => destruct b
         end; reflexivity.
Qed.

Lemma codeCount_app (a b : list Block) :
  codeCount (a ++ b) = codeCount a + codeCount b.
Proof. unfold codeCount. now rewrite filter_app, length_app. Qed.

Lemma scanLines_fence_pairs (lines : list str) (st : ScanState) :
  codeCount (blocks (scanLines lines st))
  = codeCount (blocks st)
    + (fenceCount lines + (if inCodeBlock st then 1 else 0)) / 2
  /\ inCodeBlock (scanLines lines st)
     = Nat.odd (fenceCount lines + (if inCodeBlock st then 1 else 0)).
Proof.
  revert st; induction lines as [|l ls IH]; intros st.
  - cbn. destruct (inCodeBlock st); cbn; split; (lia || reflexivity).
  - cbn [scanLines fold_left]. fold (scanLines ls (scanLine st l)).
    destruct (IH (scanLine st l)) as [C P]. rewrite C, P.
    unfold fenceCount in *. cbn [filter].
    destruct (isFence l) eqn:Fl, (inCodeBlock st) eqn:Is.
    + rewrite (scanLine_close st l Is Fl). cbn [blocks inCodeBlock length].
      rewrite codeCount_app.
      change (codeCount [codeBlock st]) with 1.
      set (n := length (filter isFence ls)).
      assert (D : (S n + 1) / 2 = (n + 0) / 2 + 1).
      { replace (S n + 1) with (n + 0 + 1 * 2) by lia.
        apply Nat.div_add. lia. }
      assert (O : Nat.odd (S n + 1) = Nat.odd (n + 0)).
      { replace (S n + 1) with (n + 0 + 2 * 1) by lia.
        apply Nat.odd_add_mul_2. }
      rewrite D, O. split; [lia|reflexivity].
    + rewrite (scanLine_open st l Is Fl). cbn [blocks inCodeBlock length].
      replace (S (length (filter isFence ls)) + 0)
        with (length (filter isFence ls) + 1) by lia.
      split; reflexivity.
    + rewrite (scanLine_inside st l Is Fl). cbn [blocks inCodeBlock].
      split; reflexivity.
    + rewrite (scanLine_outside st l Is Fl).
      destruct (isBlank l); [rewrite Is; split; reflexivity|].
      unfold pushBlock. cbn [blocks inCodeBlock].
      rewrite codeCount_app. unfold codeCount at 2. cbn [filter].
      rewrite lineBlock_not_code. cbn [length]. split; [lia|reflexivity].
Qed.

(** X6.  Whatever the document, the number of [code] blocks returned is
    half the number of its fence lines, rounded down: fence lines pair up
    in order, each pair yields one block, and an odd last one yields
    none. *)
Theorem code_blocks_pair_the_fences (markdown : str) :
  codeCount (markdownToBlocks markdown)
  = fenceCount (split LF markdown) / 2.
Proof.
  unfold markdownToBlocks.
  destruct (scanLines_fence_pairs (split LF markdown) initialScan) as [C _].
  rewrite C. cbn. now rewrite Nat.add_0_r.
Qed.

(** *** Documents put one after the other *)

Lemma atRest_initial (st : ScanState) :
  atRest st -> inCodeBlock st = false ->
  st = prependBlocks (blocks st) initialScan.
Proof.
  intros H Hin. destruct (H Hin) as [L C].
  destruct st as [b i la c]. cbn in *. subst.
  unfold prependBlocks, initialScan. cbn. now rewrite app_nil_r.
Qed.

(** X7.  When the first of two lists of lines has an even number of fence
    lines, the blocks of the two lists put together are the blocks of the
    first followed by the blocks of the second. *)
Theorem blocks_of_joined_documents (first second : list str) :
  Forall noLF first -> Forall noLF second ->
  Nat.even (fenceCount first) = true ->
  markdownToBlocks (doc (first ++ second))
  = markdownToBlocks (doc first) ++ markdownToBlocks (doc second).
Proof.
  intros H1 H2 He.
  rewrite !markdownToBlocks_doc by (assumption || now apply Forall_app).
  rewrite scanLines_app.
  destruct (scanLines_fence_pairs first initialScan) as [_ P].
  cbn [inCodeBlock initialScan] in P. rewrite Nat.add_0_r in P.
  rewrite <- Nat.negb_even, He in P. cbn in P.
  rewrite (atRest_initial (scanLines first initialScan)
             (scanLines_atRest first initialScan initialScan_atRest) P).
  rewrite scanLines_prepend. cbn [blocks prependBlocks].
  now rewrite app_nil_r.
Qed.

(** *** Every block is well formed *)

Lemma parseRichText_nonempty (s : str) : s <> [] -> parseRichText s <> [].
Proof. intros H E. apply H, runsText_nil. now rewrite E. Qed.

Lemma wellFormed_parsed (t : BlockType) (s : str) :
  t <> code -> s <> [] -> wellFormed (mkBlock t (parseRichText s) None).
Proof.
  intros Ht Hs. unfold wellFormed. cbn [type rich_text language].
  destruct t; try congruence;
    (split; [reflexivity|]; split;
     [now apply parseRichText_nonempty | apply parseRichText_runs_content]).
Qed.

Lemma wellFormed_literal (t : BlockType) (s : str) :
  t <> code -> s <> [] -> wellFormed (mkBlock t [mkRichText Plain s] None).
Proof.
  intros Ht Hs. unfold wellFormed. cbn [type rich_text language].
  destruct t; try congruence;
    (split; [reflexivity|]; split; [discriminate|]; now repeat constructor).
Qed.

Lemma lineBlock_wellFormed (line : str) :
  trim line <> [] -> wellFormed (lineBlock (trim line)).
Proof.
  intros Hne. unfold lineBlock.
  destruct (startsWith (trim line) H1) eqn:E1.
  { apply startsWith_inv in E1 as [r E]. rewrite E.
    apply wellFormed_literal; [discriminate|].
    now apply (trim_goes_on line [HASH] r SPACE). }
  destruct (startsWith (trim line) H2) eqn:E2.
  { apply startsWith_inv in E2 as [r E]. rewrite E.
    apply wellFormed_literal; [discriminate|].
    now apply (trim_goes_on line [HASH; HASH] r SPACE). }
  destruct (startsWith (trim line) H3) eqn:E3.
  { apply startsWith_inv in E3 as [r E]. rewrite E.
    apply wellFormed_literal; [discriminate|].
    now apply (trim_goes_on line [HASH; HASH; HASH] r SPACE). }
  destruct (startsWith (trim line) BULLET) eqn:E4.
  { apply startsWith_inv in E4 as [r E]. rewrite E.
    apply wellFormed_parsed; [discriminate|].
    now apply (trim_goes_on line [DASH] r SPACE). }
  unfold numbered_test, numbered_strip.
  destruct (numbered_exec (trim line)) as [n|] eqn:E5.
  { destruct (numbered_exec_inv (trim line) n E5)
      as (ds & w & rest & _ & _ & Hw & E & ->).
    rewrite E, skipn_app, skipn_all2 by lia.
    replace (length ds + 2 - length ds) with 2 by lia. cbn [skipn app].
    apply wellFormed_parsed; [discriminate|].
    apply (trim_goes_on line (ds ++ [DOT]) rest w); [|assumption].
    now rewrite <- app_assoc. }
  destruct (startsWith (trim line) QUOTE) eqn:E6.
  { apply startsWith_inv in E6 as [r E]. rewrite E.
    apply wellFormed_parsed; [discriminate|].
    now apply (trim_goes_on line [GT] r SPACE). }
  now apply wellFormed_parsed.
Qed.

Lemma codeBlock_wellFormed (st : ScanState) : wellFormed (codeBlock st).
Proof.
  unfold wellFormed, codeBlock. cbn [type rich_text language]. split.
  - eexists. split; [reflexivity|]. unfold or_else.
    destruct (toLowerCase (codeBlockLanguage st)); discriminate.
  - now eexists.
Qed.

Lemma scanLine_wellFormed (st : ScanState) (line : str) :
  Forall wellFormed (blocks st) ->
  Forall wellFormed (blocks (scanLine st line)).
Proof.
  intros H. unfold scanLine.
  destruct (startsWith (trim line) FENCE), (inCodeBlock st);
    cbn [blocks]; try assumption.
  - apply Forall_app. split; [assumption|].
    constructor; [apply codeBlock_wellFormed | constructor].
  - destruct (falsy (trim line)) eqn:F; [assumption|]. cbn [blocks].
    apply Forall_app. split; [assumption|].
    constructor; [|constructor]. apply lineBlock_wellFormed.
    intros E. rewrite E in F. discriminate.
Qed.

(** X8.  Every block that [markdownToBlocks] returns is well formed: a
    [code] block has a non-empty language and a single un-annotated run;
    any other block has no language and at least one run, and none of its
    runs is empty. *)
Theorem blocks_are_well_formed (markdown : str) :
  Forall wellFormed (markdownToBlocks markdown).
Proof.
  unfold markdownToBlocks.
  assert (G : forall lines st, Forall wellFormed (blocks st) ->
              Forall wellFormed (blocks (scanLines lines st))).
  { induction lines as [|l ls IH]; intros st H; [exact H|].
    cbn [scanLines fold_left]. apply IH, scanLine_wellFormed, H. }
  apply G. constructor.
Qed.

End DocumentFacts.

Lemma blocks_follow_the_lines_witness :
  noFence (split LF (doc [js "# T"; js ""; js "  - a *b*"; js "12. c"]))
  = true
  /\ @markdownToBlocks basicLatin
       (doc [js "# T"; js ""; js "  - a *b*"; js "12. c"])
     = [mkBlock heading_1 [mkRichText Plain (js "T")] None;
        mkBlock bulleted_list_item
          [mkRichText Plain (js "a "); mkRichText Italic (js "b")] None;
        mkBlock numbered_list_item [mkRichText Plain (js "c")] None].
Proof.
  split; [reflexivity|].
  exact (@blocks_follow_the_lines basicLatin
           (doc [js "# T"; js ""; js "  - a *b*"; js "12. c"]) eq_refl).
Defined.

Lemma forall_noLF (lines : list str) :
  forallb (fun l => forallb (fun c => negb (c =? LF)%N) l) lines = true ->
  Forall noLF lines.
Proof.
  intros H. apply Forall_forall. intros l Hl Hin.
  rewrite forallb_forall in H. specialize (H l Hl).
  rewrite forallb_forall in H. specialize (H LF Hin). discriminate.
Defined.

Lemma indentation_is_ignored_witness :
  Forall noLF [js "   - item  "; js "  > quoted"]
  /\ noFence [js "   - item  "; js "  > quoted"] = true
  /\ @markdownToBlocks basicLatin (doc [js "- item"; js "> quoted"])
     = @markdownToBlocks basicLatin (doc [js "   - item  "; js "  > quoted"]).
Proof.
  assert (N : Forall noLF [js "   - item  "; js "  > quoted"])
    by (apply forall_noLF; reflexivity).
  split; [exact N|]. split; [reflexivity|].
  exact (@indentation_is_ignored basicLatin
           [js "   - item  "; js "  > quoted"] N eq_refl).
Defined.

Lemma blocks_of_joined_documents_witness :
  Forall noLF [js "intro"; js "```"; js "x"; js "```"]
  /\ Forall noLF [js "# More"]
  /\ Nat.even (fenceCount [js "intro"; js "```"; js "x"; js "```"]) = true
  /\ @markdownToBlocks basicLatin
       (doc ([js "intro"; js "```"; js "x"; js "```"] ++ [js "# More"]))
     = @markdownToBlocks basicLatin
         (doc [js "intro"; js "```"; js "x"; js "```"])
       ++ @markdownToBlocks basicLatin (doc [js "# More"]).
Proof.
  assert (N1 : Forall noLF [js "intro"; js "```"; js "x"; js "```"])
    by (apply forall_noLF; reflexivity).
  assert (N2 : Forall noLF [js "# More"])
    by (apply forall_noLF; reflexivity).
  split; [exact N1|]. split; [exact N2|]. split; [reflexivity|].
  exact (@blocks_of_joined_documents basicLatin _ _ N1 N2 eq_refl).
Defined.

(** ** [validateAuth] *)

Lemma split_piece (sep : char) (l s : str) :
  ~ In sep l -> split sep (l ++ sep :: s) = l :: split sep s.
Proof.
  intros H. induction l as [|c l IH]; simpl.
  - now rewrite N.eqb_refl.
  - destruct (c =? sep)%N eqn:E.
    + apply N.eqb_eq in E. subst c. exfalso. apply H. now left.
    + rewrite IH; [reflexivity|]. intros Hin. apply H. now right.
Qed.

Lemma split_whole (sep : char) (l : str) : ~ In sep l -> split sep l = [l].
Proof.
  intros H. induction l as [|c l IH]; simpl; [reflexivity|].
  destruct (c =? sep)%N eqn:E.
  - apply N.eqb_eq in E. subst c. exfalso. apply H. now left.
  - rewrite IH; [reflexivity|]. intros Hin. apply H. now right.
Qed.

(** The first piece of a split holds no separator and is followed by the
    end of the text or by a separator. *)
Lemma split_first (sep : char) (s : str) :
  exists piece tl,
    split sep s = piece :: tl /\ ~ In sep piece
    /\ (s = piece \/ exists r, s = piece ++ sep :: r).
Proof.
  induction s as [|c s (piece & tl & E & N & S)]; simpl.
  - exists [], []. repeat split; auto.
  - destruct (c =? sep)%N eqn:C.
    + apply N.eqb_eq in C. subst c. exists [], (split sep s).
      repeat split; auto. right. now exists s.
    + rewrite E. exists (c :: piece), tl. repeat split.
      * intros [->|Hin]; [now rewrite N.eqb_refl in C | now apply N].
      * destruct S as [->|(r & ->)]; [now left|]. right. now exists r.
Qed.

Lemma bearer_token (rest : str) :
  nth_error (split SPACE (BEARER ++ rest)) 1
  = Some (hd [] (split SPACE rest)).
Proof.
  change (BEARER ++ rest) with (removelast BEARER ++ SPACE :: rest).
  rewrite split_piece.
  - cbn. destruct (split_first SPACE rest) as (p & tl & -> & _). reflexivity.
  - cbv. intros H. repeat (destruct H as [H|H]; [discriminate|]). exact H.
Qed.

Lemma validateAuth_next (webhookSecret authorization : option str) :
  validateAuth webhookSecret authorization = next
  <-> exists secret rest,
        webhookSecret = Some secret /\ ~ In SPACE secret
        /\ authorization = Some (BEARER ++ secret ++ rest)
        /\ (rest = [] \/ exists r, rest = SPACE :: r).
Proof.
  split.
  - unfold validateAuth. destruct authorization as [h|]; [|discriminate].
    destruct (falsy h || negb (startsWith h BEARER)) eqn:G; [discriminate|].
    apply orb_false_iff in G as [_ G]. apply negb_false_iff in G.
    apply startsWith_inv in G as [h' ->]. rewrite bearer_token.
    destruct (split_first SPACE h') as (piece & tl & E & N & S).
    rewrite E. cbn [hd].
    match goal with
    | |- context [option_str_eq_dec ?a ?b] =>
        destruct (option_str_eq_dec a b) as [Heq|Hne]
    end.
    2:{ intros D. discriminate D. }
    subst webhookSecret.
    intros _. destruct S as [->|(r & ->)].
    + exists piece, []. rewrite app_nil_r. repeat split; auto.
    + exists piece, (SPACE :: r). repeat split; auto. right. now exists r.
  - intros (secret & rest & -> & N & -> & R). unfold validateAuth.
    replace (falsy (BEARER ++ secret ++ rest)) with false by reflexivity.
    rewrite startsWith_app, bearer_token. cbn [orb negb].
    replace (split SPACE (secret ++ rest)) with (secret :: tl (split SPACE (secret ++ rest))).
    + cbn [hd].
      match goal with
      | |- context [option_str_eq_dec ?a ?b] =>
          destruct (option_str_eq_dec a b) as [Heq|Hne]
      end; [reflexivity | now contradiction Hne].
    + destruct R as [->|(r & ->)].
      * rewrite app_nil_r. now rewrite split_whole.
      * now rewrite split_piece.
Qed.

(** X9.  [validateAuth] hands a request over exactly when a secret is
    configured, holds no space, and the header is [Bearer ], the secret,
    and then nothing or a space followed by anything; every other request
    is answered with status 401. *)
Theorem validateAuth_admits (webhookSecret authorization : option str) :
  (validateAuth webhookSecret authorization = next
   <-> exists secret rest,
         webhookSecret = Some secret /\ ~ In SPACE secret
         /\ authorization = Some (BEARER ++ secret ++ rest)
         /\ (rest = [] \/ exists r, rest = SPACE :: r))
  /\ (validateAuth webhookSecret authorization = next
      \/ exists message,
           validateAuth webhookSecret authorization = Respond 401 message).
Proof.
  split; [apply validateAuth_next|].
  unfold validateAuth. destruct authorization as [h|]; [|right; now eexists].
  destruct (falsy h || negb (startsWith h BEARER)); [right; now eexists|].
  destruct (option_str_eq_dec _ _); [now left | right; now eexists].
Qed.

(** X10.  Without a configured secret, or with a secret that holds a
    space, no header at all is accepted. *)
Theorem validateAuth_secret_edges (webhookSecret authorization : option str) :
  (webhookSecret = None \/ exists s, webhookSecret = Some s /\ In SPACE s) ->
  validateAuth webhookSecret authorization <> next.
Proof.
  intros H E. apply validateAuth_next in E
    as (secret & rest & Es & N & _ & _).
  destruct H as [H|(s & H & Hin)]; rewrite H in Es; [discriminate|].
  injection Es as ->. contradiction.
Qed.

Lemma validateAuth_secret_edges_witness :
  (Some (js "my secret") = None
   \/ exists s, Some (js "my secret") = Some s /\ In SPACE s)
  /\ validateAuth (Some (js "my secret")) (Some (js "Bearer my secret"))
     <> next.
Proof.
  assert (H : Some (js "my secret") = None
              \/ exists s, Some (js "my secret") = Some s /\ In SPACE s).
  { right. exists (js "my secret"). split; [reflexivity|].
    cbv. right. right. now left. }
  split; [exact H|].
  exact (validateAuth_secret_edges (Some (js "my secret"))
           (Some (js "Bearer my secret")) H).
Defined.

Lemma validateAuth_admits_witness :
  (exists secret rest,
      Some (js "s3cret") = Some secret /\ ~ In SPACE secret
      /\ Some (js "Bearer s3cret and more") = Some (BEARER ++ secret ++ rest)
      /\ (rest = [] \/ exists r, rest = SPACE :: r))
  /\ validateAuth (Some (js "s3cret")) (Some (js "Bearer s3cret and more"))
     = next.
Proof.
  assert (H : exists secret rest,
             Some (js "s3cret") = Some secret /\ ~ In SPACE secret
             /\ Some (js "Bearer s3cret and more")
                = Some (BEARER ++ secret ++ rest)
             /\ (rest = [] \/ exists r, rest = SPACE :: r)).
  { exists (js "s3cret"), (js " and more"). split; [reflexivity|]. split.
    - cbv. intros H. repeat (destruct H as [H|H]; [discriminate|]). exact H.
    - split; [reflexivity|]. right. now eexists. }
  split; [exact H|].
  exact (proj2 (proj1 (validateAuth_admits (Some (js "s3cret"))
                         (Some (js "Bearer s3cret and more")))) H).
Defined.

(** ** [extractVideoId] *)

Lemma startsWith_In (s p : str) (c : char) :
  startsWith s p = true -> In c p -> In c s.
Proof.
  intros H Hc. apply startsWith_inv in H as [r ->].
  apply in_or_app. now left.
Qed.

Lemma startsWith_length (s p : str) :
  startsWith s p = true -> length p <= length s.
Proof.
  intros H. apply startsWith_inv in H as [r ->]. rewrite length_app. lia.
Qed.

Lemma skipn_In (n : nat) (s : str) (c : char) : In c (skipn n s) -> In c s.
Proof.
  intros H. rewrite <- (firstn_skipn n s). apply in_or_app. now right.
Qed.

(** Each alternative of group 1 holds a slash, a question mark or an
    ampersand. *)
Lemma group1_exec_mark (s : str) (g : nat) :
  group1_exec s = Some g ->
  In 47%N s \/ In 63%N s \/ In 38%N s.
Proof.
  unfold group1_exec.
  repeat match goal with
         | |- context [if ?b then _ else _] => destruct b eqn:?
         end; try discriminate; intros _;
    repeat match goal with
           | H : _ && _ = true |- _ => apply andb_true_iff in H as [? H]
           end.
  - left. eapply skipn_In, startsWith_In; [eassumption|]. cbv. auto.
  - left. eapply startsWith_In; [eassumption|]. cbv. auto.
  - left. eapply startsWith_In; [eassumption|]. cbv. auto.
  - left. eapply startsWith_In; [eassumption|]. cbv. auto 7.
  - right. left. eapply startsWith_In; [eassumption|]. cbv. auto 7.
  - right. right. eapply startsWith_In; [eassumption|]. cbv. auto.
Qed.

Lemma group1_exec_bound (s : str) (g : nat) :
  group1_exec s = Some g -> 0 < g <= length s.
Proof.
  unfold group1_exec.
  repeat match goal with
         | |- context [if ?b then _ else _] => destruct b eqn:?
         end; try discriminate; intros [= <-];
    repeat match goal with
           | H : _ && _ = true |- _ => apply andb_true_iff in H as [? H]
           | H : startsWith _ _ = true |- _ =>
               apply startsWith_length in H; cbn [length YOUTU BE_SLASH
                 V_SLASH U_SLASH SLASH EMBED WATCH AMP_V] in H
           end; try rewrite length_skipn in *; lia.
Qed.

Lemma isVideoIdChar_spec (c : char) :
  isVideoIdChar c = true ->
  isIdChar c = true /\ c <> 47%N /\ c <> 63%N /\ c <> 38%N.
Proof.
  intros H. repeat split.
  - unfold isIdChar. apply negb_true_iff.
    destruct (c =? 35)%N eqn:A; [apply N.eqb_eq in A; now subst|].
    destruct (c =? 38)%N eqn:B; [apply N.eqb_eq in B; now subst|].
    destruct (c =? 63)%N eqn:C; [apply N.eqb_eq in C; now subst|].
    reflexivity.
  - intros ->. discriminate.
  - intros ->. discriminate.
  - intros ->. discriminate.
Qed.

Lemma group1_exec_videoId (s : str) :
  forallb isVideoIdChar s = true -> group1_exec s = None.
Proof.
  intros H. destruct (group1_exec s) as [g|] eqn:E; [|reflexivity].
  rewrite forallb_forall in H.
  destruct (group1_exec_mark s g E) as [M|[M|M]];
    apply H, isVideoIdChar_spec in M; tauto.
Qed.

Lemma markerFree_videoId (s : str) :
  forallb isVideoIdChar s = true -> markerFree s = true.
Proof.
  induction s as [|c s IH]; intros H; [reflexivity|].
  cbn [markerFree]. rewrite (group1_exec_videoId (c :: s) H).
  simpl in H. apply andb_true_iff in H as [_ H]. now apply IH.
Qed.

Lemma takeWhile_all (p : char -> bool) (s : str) :
  forallb p s = true -> takeWhile p s = s.
Proof.
  induction s as [|c s IH]; simpl; [reflexivity|]. intros H.
  apply andb_true_iff in H as [-> H]. now rewrite IH.
Qed.

Lemma takeWhile_rest (p : char -> bool) (s : str) :
  exists q, s = takeWhile p s ++ q
            /\ (q = [] \/ exists c q', q = c :: q' /\ p c = false).
Proof.
  induction s as [|c s (q & E & Q)]; simpl.
  - exists []. split; [reflexivity | now left].
  - destruct (p c) eqn:Pc.
    + exists q. split; [simpl; now f_equal | exact Q].
    + exists (c :: s). split; [reflexivity|]. right. now exists c, s.
Qed.

Lemma after_group1_none (s : str) :
  markerFree s = true -> after_group1 s = None.
Proof.
  induction s as [|c s IH]; [reflexivity|]. cbn [markerFree after_group1].
  destruct (group1_exec (c :: s)); [discriminate|]. intros H.
  rewrite (IH H). now destruct (isLineTerminator c).
Qed.

Lemma after_group1_here (s : str) (g : nat) :
  group1_exec s = Some g -> markerFree (tl s) = true ->
  after_group1 s = Some (skipn g s).
Proof.
  intros E H. destruct s as [|c s]; [discriminate|].
  cbn [tl] in H. cbn [after_group1].
  rewrite (after_group1_none s H), E. now destruct (isLineTerminator c).
Qed.

Lemma after_group1_prefix (p s r : str) :
  noLineTerminator p = true -> after_group1 s = Some r ->
  after_group1 (p ++ s) = Some r.
Proof.
  intros H E. induction p as [|c p IH]; [exact E|].
  simpl in H. apply andb_true_iff in H as [Hc H].
  apply negb_true_iff in Hc. cbn [app after_group1].
  now rewrite Hc, (IH H).
Qed.

Lemma after_group1_inv (s r : str) :
  after_group1 s = Some r ->
  exists p m, s = p ++ m ++ r /\ noLineTerminator p = true
              /\ group1_exec (m ++ r) = Some (length m).
Proof.
  revert r; induction s as [|c s IH]; intros r; [discriminate|].
  cbn [after_group1].
  destruct (if isLineTerminator c then None else after_group1 s)
    as [r'|] eqn:D.
  - intros [= <-]. destruct (isLineTerminator c) eqn:L; [discriminate|].
    destruct (IH r' D) as (p & m & -> & Hp & Hm).
    exists (c :: p), m. repeat split; [|assumption].
    simpl. now rewrite L.
  - destruct (group1_exec (c :: s)) as [g|] eqn:G; [|discriminate].
    intros [= <-]. pose proof (group1_exec_bound (c :: s) g G) as B.
    exists [], (firstn g (c :: s)). cbn [app].
    rewrite firstn_skipn, length_firstn. repeat split.
    rewrite G. f_equal. lia.
Qed.

(** X11.  An id returned by [extractVideoId] has exactly eleven code
    units, none of them [#], [&] or [?]; it stands in the URL right behind
    a match of group 1 that only code units other than line terminators
    precede, and it ends at the end of the URL or at a [#], [&] or [?]. *)
Theorem extractVideoId_shape (url id : str) :
  extractVideoId url = Some id ->
  length id = 11 /\ forallb isIdChar id = true
  /\ exists p m q,
       url = p ++ m ++ id ++ q
       /\ noLineTerminator p = true
       /\ group1_exec (m ++ id ++ q) = Some (length m)
       /\ (q = [] \/ exists c q', q = c :: q' /\ isIdChar c = false).
Proof.
  unfold extractVideoId.
  destruct (after_group1 url) as [r|] eqn:A; [|discriminate].
  cbv zeta. destruct (length (takeWhile isIdChar r) =? 11) eqn:L;
    [|discriminate].
  intros [= <-]. apply Nat.eqb_eq in L. split; [exact L|].
  split; [apply (takeWhile_split isIdChar r)|].
  destruct (after_group1_inv url r A) as (p & m & E & Hp & Hm).
  destruct (takeWhile_rest isIdChar r) as (q & Er & Q).
  exists p, m, q. rewrite <- Er. repeat split; assumption.
Qed.

Lemma extractVideoId_last_marker (p m r : str) :
  noLineTerminator p = true ->
  group1_exec (m ++ r) = Some (length m) ->
  markerFree (tl (m ++ r)) = true ->
  extractVideoId (p ++ m ++ r)
  = if length (takeWhile isIdChar r) =? 11
    then Some (takeWhile isIdChar r) else None.
Proof.
  intros Hp Hm Hf. unfold extractVideoId.
  rewrite (after_group1_prefix p (m ++ r) (skipn (length m) (m ++ r)) Hp
             (after_group1_here (m ++ r) (length m) Hm Hf)).
  now rewrite skipn_app, skipn_all, Nat.sub_diag.
Qed.

(** X12.  The last match of group 1 decides: when a match of group 1 has
    only code units other than line terminators before it and no match of
    group 1 starts behind its first code unit, the result is the run of
    code units other than [#], [&] and [?] behind it if that run has
    eleven code units, and [null] otherwise.  What precedes the match,
    the host included, is not looked at. *)
Theorem extractVideoId_after_last_marker (p m r : str) :
  noLineTerminator p = true ->
  group1_exec (m ++ r) = Some (length m) ->
  markerFree (tl (m ++ r)) = true ->
  extractVideoId (p ++ m ++ r)
  = if length (takeWhile isIdChar r) =? 11
    then Some (takeWhile isIdChar r) else None.
Proof. exact (extractVideoId_last_marker p m r). Qed.

Lemma extractVideoId_after_last_marker_witness :
  noLineTerminator (js "https://www.youtube.com/") = true
  /\ group1_exec (js "watch?v=" ++ js "dQw4w9WgXcQ&t=42s") = Some 8
  /\ markerFree (tl (js "watch?v=" ++ js "dQw4w9WgXcQ&t=42s")) = true
  /\ extractVideoId (js "https://www.youtube.com/watch?v=dQw4w9WgXcQ&t=42s")
     = Some (js "dQw4w9WgXcQ").
Proof.
  do 3 (split; [reflexivity|]).
  exact (extractVideoId_after_last_marker (js "https://www.youtube.com/")
           (js "watch?v=") (js "dQw4w9WgXcQ&t=42s")
           eq_refl eq_refl eq_refl).
Defined.

(** X13.  For any text without line terminator followed by [watch?v=],
    [youtu.be/] or [embed/] and then only letters, digits, underscores
    and hyphens up to the end, the result is those code units if there
    are eleven of them, and [null] otherwise. *)
Theorem extractVideoId_usual_forms (p id : str) :
  noLineTerminator p = true -> forallb isVideoIdChar id = true ->
  extractVideoId (p ++ WATCH ++ id)
  = (if length id =? 11 then Some id else None)
  /\ extractVideoId (p ++ YOUTU_BE ++ id)
     = (if length id =? 11 then Some id else None)
  /\ extractVideoId (p ++ EMBED ++ id)
     = (if length id =? 11 then Some id else None).
Proof.
  intros Hp Hid.
  assert (T : takeWhile isIdChar id = id).
  { apply takeWhile_all. rewrite forallb_forall in *. intros c Hc.
    now apply isVideoIdChar_spec, Hid. }
  pose proof (markerFree_videoId id Hid) as F.
  repeat split.
  - rewrite (extractVideoId_last_marker p WATCH id Hp); [now rewrite T|reflexivity|].
    cbn. exact F.
  - rewrite (extractVideoId_last_marker p YOUTU_BE id Hp); [now rewrite T|reflexivity|].
    cbn. exact F.
  - rewrite (extractVideoId_last_marker p EMBED id Hp); [now rewrite T|reflexivity|].
    cbn. exact F.
Qed.

Lemma extractVideoId_usual_forms_witness :
  noLineTerminator (js "https://example.org/") = true
  /\ forallb isVideoIdChar (js "dQw4w9WgXcQ") = true
  /\ extractVideoId (js "https://example.org/watch?v=dQw4w9WgXcQ")
     = Some (js "dQw4w9WgXcQ").
Proof.
  do 2 (split; [reflexivity|]).
  exact (proj1 (extractVideoId_usual_forms (js "https://example.org/")
                  (js "dQw4w9WgXcQ") eq_refl eq_refl)).
Defined.

Lemma extractVideoId_shape_witness :
  extractVideoId (js "https://youtu.be/dQw4w9WgXcQ?t=10")
  = Some (js "dQw4w9WgXcQ")
  /\ length (js "dQw4w9WgXcQ") = 11.
Proof.
  split; [reflexivity|].
  exact (proj1 (extractVideoId_shape
                  (js "https://youtu.be/dQw4w9WgXcQ?t=10")
                  (js "dQw4w9WgXcQ") eq_refl)).
Defined.

(** ** A lone delimiter *)

Lemma noDelimiters_not_In (q : str) :
  noDelimiters q = true -> ~ In STAR q /\ ~ In BACKTICK q.
Proof.
  induction q as [|c q IH]; intros H; [split; intros []|].
  apply noDelimiters_head in H as (A & B & H).
  destruct (IH H) as [S T].
  split; intros [E|E]; auto.
Qed.

Lemma lazy_dot_until_absent (x : char) (closer s : str) :
  ~ In x s -> lazy_dot_until (x :: closer) s = None.
Proof.
  induction s as [|c s IH]; intros H; [reflexivity|].
  cbn [lazy_dot_until startsWith].
  assert (Hc : (x =? c)%N = false)
    by (apply N.eqb_neq; intros ->; apply H; now left).
  rewrite Hc. cbn [andb]. rewrite IH by (intros Hin; apply H; now right).
  now destruct (isLineTerminator c).
Qed.

Lemma inline_exec_lone (d : char) (q : str) :
  noDelimiters q = true -> inline_exec (d :: q) = None.
Proof.
  intros H. destruct (noDelimiters_not_In q H) as [S T].
  assert (D : forall o x, ~ In x q -> delimited [o] [x] (d :: q) = None).
  { intros o x Hx. unfold delimited. cbn [length skipn].
    rewrite (lazy_dot_until_absent x [] q Hx).
    now destruct (startsWith (d :: q) [o]). }
  unfold inline_exec, STAR1, TICK1.
  rewrite (D STAR STAR S), (D BACKTICK BACKTICK T).
  replace (delimited STARS2 STARS2 (d :: q)) with (@None nat); [reflexivity|].
  unfold delimited, STARS2. cbn [length skipn].
  destruct (startsWith (d :: q) [STAR; STAR]); [|reflexivity].
  destruct q as [|c q]; [reflexivity|]. cbn [skipn].
  rewrite (lazy_dot_until_absent STAR [STAR] q); [reflexivity|].
  intros Hin. apply S. now right.
Qed.

Lemma endsWith_inv (s p : str) :
  endsWith s p = true -> exists r, s = r ++ p.
Proof.
  unfold endsWith. intros H. apply startsWith_inv in H as [r E].
  exists (rev r). apply (f_equal (@rev char)) in E.
  now rewrite rev_involutive, rev_app_distr, rev_involutive in E.
Qed.

Lemma endsWith_tail (d x : char) (q p : str) :
  q <> [] -> ~ In x q -> endsWith (d :: q) (p ++ [x]) = false.
Proof.
  intros Hq Hx. destruct (endsWith (d :: q) (p ++ [x])) eqn:E; [|reflexivity].
  apply endsWith_inv in E as [r E]. rewrite app_assoc in E.
  destruct (r ++ p) as [|a l]; cbn [app] in E.
  - injection E as _ ->. congruence.
  - injection E as _ ->. exfalso. apply Hx, in_or_app. right. now left.
Qed.

Lemma partRuns_lone (p q : str) (d : char) :
  noDelimiters p = true -> noDelimiters q = true ->
  d = STAR \/ d = BACKTICK ->
  partRuns (p ++ d :: q) = [mkRichText Plain (p ++ d :: q)].
Proof.
  intros Hp Hq Hd. destruct p as [|c p].
  - cbn [app]. destruct q as [|c q].
    + destruct Hd as [->| ->]; reflexivity.
    + destruct (noDelimiters_not_In (c :: q) Hq) as [S T].
      assert (N : c :: q <> []) by discriminate.
      assert (E2 : endsWith (d :: c :: q) STARS2 = false)
        by exact (endsWith_tail d STAR (c :: q) [STAR] N S).
      assert (E1 : endsWith (d :: c :: q) STAR1 = false)
        by exact (endsWith_tail d STAR (c :: q) [] N S).
      assert (E3 : endsWith (d :: c :: q) TICK1 = false)
        by exact (endsWith_tail d BACKTICK (c :: q) [] N T).
      unfold partRuns, pushPart. cbn [falsy].
      now rewrite E1, E2, E3, !andb_false_r.
  - apply noDelimiters_head in Hp as (A & B & _).
    unfold partRuns, pushPart, STARS2, STAR1, TICK1. cbn [falsy app].
    now rewrite !startsWith_head_neq.
Qed.

(** X14.  A line with a single asterisk or backtick and no other
    delimiter is one Plain run holding the whole line: a lone delimiter is
    never taken away. *)
Theorem lone_delimiter_is_plain (p q : str) (d : char) :
  noDelimiters p = true -> noDelimiters q = true ->
  d = STAR \/ d = BACKTICK ->
  parseRichText (p ++ d :: q) = [mkRichText Plain (p ++ d :: q)].
Proof.
  intros Hp Hq Hd. rewrite parseRichText_flat_map. unfold split_inline.
  rewrite split_scan_plain_prefix by assumption.
  rewrite split_scan_nomatch by now apply inline_exec_lone.
  rewrite split_scan_plain by assumption.
  cbn [flat_map app]. rewrite app_nil_r, <- app_assoc. cbn [app].
  now apply partRuns_lone.
Qed.

Lemma lone_delimiter_is_plain_witness :
  noDelimiters (js "2 ") = true /\ noDelimiters (js " 3 = 6") = true
  /\ (STAR = STAR \/ STAR = BACKTICK)
  /\ parseRichText (js "2 * 3 = 6") = [mkRichText Plain (js "2 * 3 = 6")].
Proof.
  do 2 (split; [reflexivity|]). split; [now left|].
  exact (lone_delimiter_is_plain (js "2 ") (js " 3 = 6") STAR
           eq_refl eq_refl (or_introl eq_refl)).
Defined.

(** ** The parent of the page *)

Section WebhookFacts.

Context {RT : Runtime}.

Lemma createPage_creates (config : NotionConfig) (title markdown : str)
    (parentConfig : option ParentConfig) :
  resolveParentId config parentConfig <> [] ->
  exists request,
    createPage config title markdown parentConfig = Create request
    /\ parentIdOf (parent request) = resolveParentId config parentConfig.
Proof.
  intros H. unfold createPage.
  destruct (resolveParentId config parentConfig) as [|c r] eqn:E;
    [congruence|]. cbn [falsy].
  destruct (startsWith (trim (hd [] (split LF markdown))) H1);
    eexists; (split; [reflexivity|]); cbn [parent];
    now destruct (str_eq_dec _ _).
Qed.

(** X15.  The webhook handler takes the parent id from [notion_parent]
    when the request has one and from the configuration otherwise.  With
    an empty id it throws before any page is built, even when the request
    names a parent without id and the configuration has a default, a case
    in which [createPage] alone would use that default; with a non-empty
    id the page is created under exactly that id. *)
Theorem webhook_parent_id (config : NotionConfig)
    (notion_parent : option ParentConfig) (videoTitle howToContent : str) :
  (forall pc, notion_parent = Some pc -> parent_id pc = [] ->
     webhookCreatePage config notion_parent videoTitle howToContent
     = Throw NO_PARENT_WEBHOOK
     /\ (defaultParentId config <> [] ->
         exists request,
           createPage config videoTitle howToContent notion_parent
           = Create request
           /\ parentIdOf (parent request) = defaultParentId config))
  /\ (notion_parent = None -> defaultParentId config = [] ->
      webhookCreatePage config notion_parent videoTitle howToContent
      = Throw NO_PARENT_WEBHOOK)
  /\ (forall chosen,
        chosen <> [] ->
        chosen = match notion_parent with
                 | Some pc => parent_id pc
                 | None => defaultParentId config
                 end ->
        exists request,
          webhookCreatePage config notion_parent videoTitle howToContent
          = Create request
          /\ parentIdOf (parent request) = chosen).
Proof.
  repeat split.
  - subst. unfold webhookCreatePage. now rewrite H0.
  - intros Hd. subst.
    destruct (createPage_creates config videoTitle howToContent (Some pc))
      as (request & E & P).
    + unfold resolveParentId, or_else. rewrite H0. cbn [falsy]. exact Hd.
    + exists request. split; [exact E|]. rewrite P.
      unfold resolveParentId, or_else. now rewrite H0.
  - intros -> Hd. unfold webhookCreatePage. cbn. now rewrite Hd.
  - intros chosen Hne Hc. unfold webhookCreatePage.
    set (pc := match notion_parent with
               | Some pc => pc
               | None => {| parent_type := defaultParentType config;
                            parent_id := defaultParentId config |}
               end).
    assert (Hid : parent_id pc = chosen)
      by (subst pc chosen; now destruct notion_parent).
    clear Hc. subst chosen.
    destruct (parent_id pc) as [|c r] eqn:E; [congruence|]. cbn [falsy].
    destruct (createPage_creates config videoTitle howToContent (Some pc))
      as (request & Ec & P).
    + unfold resolveParentId, or_else. cbn. now rewrite E.
    + exists request. split; [exact Ec|]. rewrite P.
      unfold resolveParentId, or_else. cbn. now rewrite E.
Qed.

End WebhookFacts.

Lemma webhook_parent_id_witness :
  js "abc" <> [] /\ defaultParentId sampleConfig <> []
  /\ (exists request,
        @webhookCreatePage basicLatin sampleConfig
          (Some {| parent_type := js "page"; parent_id := js "abc" |})
          (js "Video") (js "# Guide")
        = Create request
        /\ parentIdOf (parent request) = js "abc")
  /\ @webhookCreatePage basicLatin sampleConfig
       (Some {| parent_type := js "page"; parent_id := [] |})
       (js "Video") (js "# Guide")
     = Throw NO_PARENT_WEBHOOK
  /\ exists request,
       @createPage basicLatin sampleConfig (js "Video") (js "# Guide")
         (Some {| parent_type := js "page"; parent_id := [] |})
       = Create request
       /\ parentIdOf (parent request) = defaultParentId sampleConfig.
Proof.
  assert (N : js "abc" <> []) by discriminate.
  assert (D : defaultParentId sampleConfig <> []) by discriminate.
  split; [exact N|]. split; [exact D|]. split.
  - exact (proj2 (proj2 (@webhook_parent_id basicLatin sampleConfig
                           (Some {| parent_type := js "page";
                                    parent_id := js "abc" |})
                           (js "Video") (js "# Guide")))
             (js "abc") N eq_refl).
  - pose proof (proj1 (@webhook_parent_id basicLatin sampleConfig
                         (Some {| parent_type := js "page";
                                  parent_id := [] |})
                         (js "Video") (js "# Guide"))
                  {| parent_type := js "page"; parent_id := [] |}
                  eq_refl eq_refl) as [T C].
    split; [exact T | exact (C D)].
Defined.
